(** * Magnify: the utility module [lib/utils.ts]

    A shallow embedding of the helper functions of [src/lib/utils.ts]
    (error normalisation, shimmer placeholder, URL query update and removal,
    debounce, download, deep merge) and the properties stated about them. *)

From Stdlib Require Import List String Ascii ZArith NArith Bool Lia Arith Sorted.
From Stdlib Require Import DecimalString DecimalN DecimalZ DecimalFacts.
Import ListNotations.

#[local] Set Warnings "-register-all".

Local Open Scope list_scope.
Local Open Scope string_scope.

(** ** Property names and the own-property order of JavaScript objects

    A plain object enumerates its own string keys with the canonical array
    indices first, in ascending numeric order, followed by every other key in
    the order of its creation.  [Object.keys], [for ... in], object spread and
    every library walking an object see that order. *)

Module Key.

Definition digit_of (a : ascii) : option N :=
  let c := N_of_ascii a in
  if ((48 <=? c) && (c <=? 57))%N then Some (c - 48)%N else None.

Fixpoint digits_value (acc : N) (s : string) : option N :=
  match s with
  | EmptyString => Some acc
  | String a r =>
      match digit_of a with
      | Some d => digits_value (10 * acc + d)%N r
      | None => None
      end
  end.

(** The largest array index is 2^32 - 2. *)
Definition max_index : N := 4294967294%N.

(** [array_index k] is [Some n] when [k] is the canonical decimal spelling
    of an array index [n]: no sign, no leading zero, at most [max_index]. *)
Definition array_index (k : string) : option N :=
  match k with
  | EmptyString => None
  | String "0" EmptyString => Some 0%N
  | String "0" _ => None
  | _ =>
      match digits_value 0 k with
      | Some n => if (n <=? max_index)%N then Some n else None
      | None => None
      end
  end.

(** [String(i)] for a non-negative integer [i]. *)
Definition of_index (i : N) : string := NilZero.string_of_uint (N.to_uint i).

End Key.

Module Props.
Section Props.

Context {V : Type}.

(** The own enumerable properties of an object, in enumeration order. *)
Definition props : Type := list (string * V).

Fixpoint get (k : string) (o : props) : option V :=
  match o with
  | [] => None
  | (k', v) :: r => if String.eqb k k' then Some v else get k r
  end.

Definition has (k : string) (o : props) : bool :=
  match get k o with Some _ => true | None => false end.

Fixpoint replace (k : string) (v : V) (o : props) : props :=
  match o with
  | [] => []
  | (k', v') :: r =>
      if String.eqb k k' then (k', v) :: r else (k', v') :: replace k v r
  end.

(** A new index key goes after the indices up to its own and before
    everything else. *)
Fixpoint insert_index (n : N) (k : string) (v : V) (o : props) : props :=
  match o with
  | [] => [(k, v)]
  | (k', v') :: r =>
      match Key.array_index k' with
      | Some m =>
          if (m <=? n)%N then (k', v') :: insert_index n k v r
          else (k, v) :: o
      | None => (k, v) :: o
      end
  end.

(** Creation of a property the object does not have yet. *)
Definition define (k : string) (v : V) (o : props) : props :=
  match Key.array_index k with
  | Some n => insert_index n k v o
  | None => (o ++ [(k, v)])%list
  end.

(** [o[k] = v] on a plain object. *)
Definition set (k : string) (v : V) (o : props) : props :=
  if has k o then replace k v o else define k v o.

(** [delete o[k]]. *)
Definition delete (k : string) (o : props) : props :=
  filter (fun e => negb (String.eqb k (fst e))) o.

(** [Object.keys(o)]. *)
Definition keys (o : props) : list string := map fst o.

(** The order every object keeps its keys in. *)
Definition key_before (k1 k2 : string) : Prop :=
  match Key.array_index k1, Key.array_index k2 with
  | Some a, Some b => (a <= b)%N
  | Some _, None => True
  | None, Some _ => False
  | None, None => True
  end.

Definition ordered (o : props) : Prop :=
  NoDup (keys o) /\ StronglySorted key_before (keys o).

End Props.
End Props.

Arguments Props.props : clear implicits.

(** ** JavaScript values *)

Inductive value : Type :=
| VUndefined
| VNull
| VBool (b : bool)
| VNum (n : Z)
| VStr (s : string)
| VArr (xs : list value)
| VObj (ps : list (string * value)).

Inductive js_type : Type := TUndefined | TObject | TBoolean | TNumber | TString.

Definition typeof (v : value) : js_type :=
  match v with
  | VUndefined => TUndefined
  | VNull => TObject
  | VBool _ => TBoolean
  | VNum _ => TNumber
  | VStr _ => TString
  | VArr _ => TObject
  | VObj _ => TObject
  end.

Definition is_object_type (t : js_type) : bool :=
  match t with TObject => true | _ => false end.

(** [ToBoolean]. *)
Definition truthy (v : value) : bool :=
  match v with
  | VUndefined | VNull => false
  | VBool b => b
  | VNum n => negb (Z.eqb n 0)
  | VStr s => negb (String.eqb s "")
  | VArr _ | VObj _ => true
  end.

Fixpoint chars (s : string) : list value :=
  match s with
  | EmptyString => []
  | String a r => VStr (String a EmptyString) :: chars r
  end.

Fixpoint indexed (i : N) (xs : list value) : list (string * value) :=
  match xs with
  | [] => []
  | x :: r => (Key.of_index i, x) :: indexed (N.succ i) r
  end.

(** [{ ...v }]: the own enumerable properties of [v], copied into a fresh
    plain object.  Arrays and strings contribute their indices; the other
    primitives contribute nothing. *)
Definition spread (v : value) : Props.props value :=
  match v with
  | VObj ps => ps
  | VArr xs => indexed 0 xs
  | VStr s => indexed 0 (chars s)
  | _ => []
  end.

Definition length_value {A} (l : list A) : value := VNum (Z.of_nat (List.length l)).

Definition element (xs : list value) (key : string) : value :=
  match Key.array_index key with
  | Some i => nth (N.to_nat i) xs VUndefined
  | None => if String.eqb key "length" then length_value xs else VUndefined
  end.

(** [o[key]] for a non-null [o].  The members an object inherits from its
    prototype are functions, to which the value type has no counterpart; they
    read as [VUndefined] here, which every use below treats as it treats a
    function.  The one inherited member that is not a function, the accessor
    [__proto__], reads the prototype itself; values have no prototype, so
    [member] is the code's read only for a key other than [__proto__] or a
    [__proto__] that [o] owns. *)
Definition member (o : value) (key : string) : value :=
  match o with
  | VObj ps => match Props.get key ps with Some v => v | None => VUndefined end
  | VArr xs => element xs key
  | VStr s => element (chars s) key
  | _ => VUndefined
  end.

(** ** Completions, caught values and the console *)

(** Anything a [catch] clause can receive: an instance of [Error] (or of a
    subclass such as [RangeError]), or a plain value. *)
Inductive any : Type :=
| AnError (name message : string)
| AValue (v : value).

Inductive completion (A : Type) : Type :=
| Return (a : A)
| Throw (e : any).

Arguments Return {A} a.
Arguments Throw {A} e.

(** [new Error(message)]. *)
Definition new_Error (message : string) : any := AnError "Error" message.

Inductive console_call : Type :=
| ConsoleError (arg : any)
| ConsoleLog (fields : list (string * any)).

Definition console : Type := list console_call.

(** ** [deepMergeObjects] *)

(** The test [x && typeof x === "object"] of the merge loop. *)
Definition mergeable (v : value) : bool :=
  truthy v && is_object_type (typeof v).

(** [obj1.hasOwnProperty(key)] looks the method up on [obj1] itself: a
    property [hasOwnProperty] of [obj1]'s own hides the inherited method,
    and since no value is a function the call then throws. *)
Definition not_a_function : any :=
  AnError "TypeError" "obj1.hasOwnProperty is not a function".

(** [output[key] = v] on the object the loop builds.  Unless [output] has a
    property of its own named [__proto__], an assignment to that name
    reaches the accessor [output] inherits, which creates no property (it
    re-links the prototype of [output], of which values keep no record). *)
Definition assign (key : string) (v : value) (output : Props.props value)
  : Props.props value :=
  if String.eqb key "__proto__" && negb (Props.has "__proto__" output)
  then output
  else Props.set key v output.

(** A [__proto__] key of [obj1] is looked up in [obj2] through [member],
    which does not see the prototype [obj2] inherits: the function is the
    code on every [obj1] that has no such key, at any depth. *)
Fixpoint deepMergeObjects (obj1 obj2 : value) {struct obj1} : completion value :=
  match obj2 with
  | VNull | VUndefined => Return obj1
  | _ =>
      match obj1 with
      | VObj ps =>
          (fix loop (es : list (string * value))
               (output : Props.props value) {struct es} : completion value :=
             match es with
             | [] => Return (VObj output)
             | (key, v1) :: rest =>
                 if Props.has "hasOwnProperty" ps then Throw not_a_function
                 else
                   match
                     (if mergeable v1 && mergeable (member obj2 key)
                      then deepMergeObjects v1 (member obj2 key)
                      else Return v1)
                   with
                   | Return v => loop rest (assign key v output)
                   | Throw e => Throw e
                   end
             end) ps (spread obj2)
      | VArr xs =>
          (fix loop (es : list value) (i : N)
               (output : Props.props value) {struct es} : completion value :=
             match es with
             | [] => Return (VObj output)
             | v1 :: rest =>
                 match
                   (if mergeable v1 && mergeable (member obj2 (Key.of_index i))
                    then deepMergeObjects v1 (member obj2 (Key.of_index i))
                    else Return v1)
                 with
                 | Return v => loop rest (N.succ i) (assign (Key.of_index i) v output)
                 | Throw e => Throw e
                 end
             end) xs 0%N (spread obj2)
      | VStr s =>
          Return
            (VObj (fold_left (fun output e => assign (fst e) (snd e) output)
                     (indexed 0 (chars s)) (spread obj2)))
      | _ => Return (VObj (spread obj2))
      end
  end.

(** ** [JSON.stringify] *)

Module Json.

Definition dquote : ascii := "034"%char.
Definition backslash : ascii := "092"%char.

Definition hex_digit (n : N) : ascii :=
  ascii_of_N (if (n <? 10)%N then 48 + n else 87 + n)%N.

Definition escape (a : ascii) : string :=
  let c := N_of_ascii a in
  let esc (x : ascii) := String backslash (String x EmptyString) in
  if (c =? 34)%N then esc dquote
  else if (c =? 92)%N then esc backslash
  else if (c =? 8)%N then esc "b"%char
  else if (c =? 12)%N then esc "f"%char
  else if (c =? 10)%N then esc "n"%char
  else if (c =? 13)%N then esc "r"%char
  else if (c =? 9)%N then esc "t"%char
  else if (c <? 32)%N then
    String backslash
      (String "u"%char
         (String "0"%char
            (String "0"%char
               (String (hex_digit (c / 16))
                  (String (hex_digit (c mod 16)) EmptyString)))))
  else String a EmptyString.

Fixpoint escape_all (s : string) : string :=
  match s with
  | EmptyString => EmptyString
  | String a r => escape a ++ escape_all r
  end.

Definition quote (s : string) : string :=
  String dquote (escape_all s ++ String dquote EmptyString).

(** [String(n)] for an integer [n], in the range where JavaScript spells a
    number in plain decimal digits (below 10^21 in magnitude). *)
Definition of_number (n : Z) : string := NilZero.string_of_int (Z.to_int n).

(** [JSON.stringify(v)]; [None] is the result [undefined]. *)
Fixpoint stringify (v : value) : option string :=
  match v with
  | VUndefined => None
  | VNull => Some "null"
  | VBool true => Some "true"
  | VBool false => Some "false"
  | VNum n => Some (of_number n)
  | VStr s => Some (quote s)
  | VArr xs =>
      Some ("[" ++
            String.concat ","
              ((fix elements (l : list value) : list string :=
                  match l with
                  | [] => []
                  | x :: r =>
                      match stringify x with
                      | Some s => s
                      | None => "null"
                      end :: elements r
                  end) xs)
            ++ "]")
  | VObj ps =>
      Some ("{" ++
            String.concat ","
              ((fix members (l : list (string * value)) : list string :=
                  match l with
                  | [] => []
                  | (k, x) :: r =>
                      match stringify x with
                      | Some s => (quote k ++ ":" ++ s) :: members r
                      | None => members r
                      end
                  end) ps)
            ++ "}")
  end.

(** [`${JSON.stringify(v)}`]: the template literal renders [undefined] by
    name. *)
Definition interpolate (r : option string) : string :=
  match r with Some s => s | None => "undefined" end.

End Json.

(** ** [handleError] *)

Definition handleError (error : any) (out : console)
  : console * completion Empty_set :=
  match error with
  | AnError _ message =>
      ((out ++ [ConsoleError (AValue (VStr message))])%list,
       Throw (new_Error ("Error: " ++ message)))
  | AValue (VStr s) =>
      ((out ++ [ConsoleError (AValue (VStr s))])%list,
       Throw (new_Error ("Error: " ++ s)))
  | AValue v =>
      ((out ++ [ConsoleError (AValue v)])%list,
       Throw (new_Error ("Unknown error: " ++ Json.interpolate (Json.stringify v))))
  end.

(** ** The shimmer placeholder *)

Definition nl : string := String "010"%char EmptyString.

(** A double-quoted attribute value of the SVG template. *)
Definition q (s : string) : string :=
  String Json.dquote (s ++ String Json.dquote EmptyString).

(** The template literal of [shimmer], line by line; [`${w}`] is the decimal
    spelling of [w]. *)
Definition shimmer (w h : Z) : string :=
  let W := Json.of_number w in
  let H := Json.of_number h in
  String.concat nl
    [ "";
      "    <svg width=" ++ q W ++ " height=" ++ q H ++ " version=" ++ q "1.1"
        ++ " xmlns=" ++ q "http://www.w3.org/2000/svg"
        ++ " xmlns:xlink=" ++ q "http://www.w3.org/1999/xlink" ++ ">";
      "      <defs>";
      "        <linearGradient id=" ++ q "g" ++ ">";
      "          <stop stop-color=" ++ q "#7986AC" ++ " offset=" ++ q "20%" ++ " />";
      "          <stop stop-color=" ++ q "#68769e" ++ " offset=" ++ q "50%" ++ " />";
      "          <stop stop-color=" ++ q "#7986AC" ++ " offset=" ++ q "70%" ++ " />";
      "        </linearGradient>";
      "      </defs>";
      "      <rect width=" ++ q W ++ " height=" ++ q H ++ " fill=" ++ q "#7986AC" ++ " />";
      "      <rect id=" ++ q "r" ++ " width=" ++ q W ++ " height=" ++ q H
        ++ " fill=" ++ q "url(#g)" ++ " />";
      "      <animate xlink:href=" ++ q "#r" ++ " attributeName=" ++ q "x"
        ++ " from=" ++ q ("-" ++ W) ++ " to=" ++ q W ++ " dur=" ++ q "1s"
        ++ " repeatCount=" ++ q "indefinite" ++ "  />";
      "    </svg>" ].

Module Base64.

Definition digit (n : N) : ascii :=
  if (n <? 26)%N then ascii_of_N (65 + n)
  else if (n <? 52)%N then ascii_of_N (71 + n)
  else if (n <? 62)%N then ascii_of_N (n - 4)
  else if (n =? 62)%N then "+"%char
  else "/"%char.

Fixpoint encode (bytes : list N) : string :=
  match bytes with
  | [] => EmptyString
  | [a] =>
      String (digit (a / 4))
        (String (digit (a mod 4 * 16)) "==")
  | [a; b] =>
      String (digit (a / 4))
        (String (digit (a mod 4 * 16 + b / 16))
           (String (digit (b mod 16 * 4)) "="))
  | a :: b :: c :: r =>
      String (digit (a / 4))
        (String (digit (a mod 4 * 16 + b / 16))
           (String (digit (b mod 16 * 4 + c / 64))
              (String (digit (c mod 64)) (encode r))))
  end%N.

End Base64.

(** The code units of a string (the model covers the range 0..255). *)
Fixpoint code_units (s : string) : list N :=
  match s with
  | EmptyString => []
  | String a r => N_of_ascii a :: code_units r
  end.

(** UTF-8, as [Buffer.from(str)] encodes. *)
Definition utf8_unit (c : N) : list N :=
  if (c <? 128)%N then [c] else [192 + c / 64; 128 + c mod 64]%N.

Definition utf8 (s : string) : list N := flat_map utf8_unit (code_units s).

(** Where the module is evaluated: [typeof window === "undefined"] tells
    the server from the browser, and is all [toBase64] reads from outside. *)
Inductive runtime : Type := NodeJs | Browser.

Definition toBase64 (env : runtime) (str : string) : string :=
  match env with
  | NodeJs => Base64.encode (utf8 str)
  | Browser => Base64.encode (code_units str)
  end.

(** [getDataUrl] with the dimensions [shimmer] is parameterised by; the
    module calls it at 1000 x 1000. *)
Definition shimmerDataUrl (env : runtime) (w h : Z) : string :=
  "data:image/svg+xml;base64," ++ toBase64 env (shimmer w h).

Definition getDataUrl (env : runtime) : string := shimmerDataUrl env 1000 1000.

Definition dataUrl (env : runtime) : string := getDataUrl env.

(** ** URL query strings *)

(** What a query parameter can hold: [FormUrlQueryParams] lets the caller
    pass a string, a number or [null]; parsed parameters are strings. *)
Inductive qvalue : Type :=
| QUndefined
| QNull
| QStr (s : string)
| QNum (n : Z).

Definition nullish (v : qvalue) : bool :=
  match v with QUndefined | QNull => true | _ => false end.

Module Qs.

(** [split sep s]: the pieces of [s] between occurrences of [sep]. *)
Fixpoint split (sep : ascii) (s : string) : list string :=
  match s with
  | EmptyString => [EmptyString]
  | String a r =>
      if Ascii.eqb a sep then EmptyString :: split sep r
      else
        match split sep r with
        | [] => [String a EmptyString]
        | p :: ps => String a p :: ps
        end
  end.

(** [cut part]: the text before the first [=] and the text after it. *)
Fixpoint cut (part : string) : string * string :=
  match part with
  | EmptyString => (EmptyString, EmptyString)
  | String a r =>
      if Ascii.eqb a "="%char then (EmptyString, r)
      else let (k, v) := cut r in (String a k, v)
  end.

(** Modelled from the spec: the [key=value] pairs of a query string in
    the "standard key=value&key2=value2 encoding", in the order written; a
    piece without a key is dropped. *)
Definition pairs (s : string) : list (string * string) :=
  filter (fun kv => negb (String.eqb (fst kv) ""))
    (map cut (split "&"%char s)).

(** Modelled from the spec: the query-string library ([qs]) is a
    dependency, not part of the repository.  [parse] reads the "standard
    key=value&key2=value2 encoding" into "a key-value mapping" from string
    keys to string values, assigning the pairs to a fresh object in the
    order written.  The library's conventions for bracketed (nested or
    array) keys, repeated keys and percent escapes are not modelled:
    the model is the library on flat query strings whose keys are
    distinct and whose text needs no escaping. *)
Definition parse (s : string) : Props.props qvalue :=
  fold_left (fun o kv => Props.set (fst kv) (QStr (snd kv)) o) (pairs s) [].

(** Modelled from the spec: the parameters [stringify] writes, in the
    object's key order ("skips emitting any key whose resulting value is
    null"): a key holding [undefined] is never written; a key holding
    [null] is left out under [skipNulls] and written with an empty value
    otherwise. *)
Definition emit (skipNulls : bool) (e : string * qvalue)
  : list (string * string) :=
  match snd e with
  | QUndefined => []
  | QNull => if skipNulls then [] else [(fst e, "")]
  | QStr s => [(fst e, s)]
  | QNum n => [(fst e, Json.of_number n)]
  end.

Definition emitted (skipNulls : bool) (o : Props.props qvalue)
  : list (string * string) :=
  flat_map (emit skipNulls) o.

(** Modelled from the spec: [stringify] "re-serializes" the mapping as
    [key=value] pairs joined by [&], on the same flat fragment as
    [parse]. *)
Definition stringify (skipNulls : bool) (o : Props.props qvalue) : string :=
  String.concat "&" (map (fun kv => fst kv ++ "=" ++ snd kv) (emitted skipNulls o)).

End Qs.

Section Location.

(** [window.location.pathname]. *)
Variable pathname : string.

(** The object [{ ...qs.parse(searchParams.toString()), [key]: value }]. *)
Definition formUrlQuery_params (searchParams key : string) (value : qvalue)
  : Props.props qvalue :=
  Props.set key value (Qs.parse searchParams).

Definition formUrlQuery (searchParams key : string) (value : qvalue) : string :=
  pathname ++ "?" ++ Qs.stringify true (formUrlQuery_params searchParams key value).

(** [o[key] == null && delete o[key]]. *)
Definition drop_nullish (o : Props.props qvalue) (key : string)
  : Props.props qvalue :=
  match Props.get key o with
  | Some v => if nullish v then Props.delete key o else o
  | None => Props.delete key o
  end.

(** The object [currentUrl] once both loops have run. *)
Definition removeKeysFromQuery_params (searchParams : string)
    (keysToRemove : list string) : Props.props qvalue :=
  let currentUrl := Qs.parse searchParams in
  let currentUrl :=
    fold_left (fun o key => Props.delete key o) keysToRemove currentUrl in
  fold_left drop_nullish (Props.keys currentUrl) currentUrl.

Definition removeKeysFromQuery (searchParams : string)
    (keysToRemove : list string) : string :=
  pathname ++ "?"
    ++ Qs.stringify false (removeKeysFromQuery_params searchParams keysToRemove).

End Location.

(** ** [debounce] *)

Module Debounce.
Section Debounce.

(** The argument list of one call of the debounced function. *)
Variable A : Type.

(** A timer set by [setTimeout(() => func.apply(null, args), delay)]:
    its handle (a positive integer), the time it is due and the arguments
    its callback passes to [func]. *)
Record timer : Type := { handle : positive; due : N; args : A }.

(** The event loop as the wrapper sees it: the clock (in milliseconds),
    the next timer handle, the timers not yet run, and the calls [func]
    has received so far. *)
Record loop : Type :=
  { now : N; fresh : positive; timers : list timer; invoked : list A }.

Definition setTimeout (a : A) (delay : N) (l : loop) : positive * loop :=
  (fresh l,
   {| now := now l;
      fresh := Pos.succ (fresh l);
      timers := (timers l ++ [{| handle := fresh l; due := now l + delay; args := a |}])%list;
      invoked := invoked l |}).

Definition clearTimeout (id : positive) (l : loop) : loop :=
  {| now := now l;
     fresh := fresh l;
     timers := filter (fun t => negb (Pos.eqb (handle t) id)) (timers l);
     invoked := invoked l |}.

(** The closure [debounce(func, delay)] returns, with its variable
    [timeoutId] ([None] until the first call). *)
Record closure : Type := { timeoutId : option positive; world : loop }.

Variable delay : N.

Definition call (a : A) (c : closure) : closure :=
  let l :=
    match timeoutId c with
    | Some id => clearTimeout id (world c)
    | None => world c
    end in
  let (id, l') := setTimeout a delay l in
  {| timeoutId := Some id; world := l' |}.

(** Timers run in the order they fall due, ties in the order they were
    set. *)
Fixpoint enqueue (t : timer) (ts : list timer) : list timer :=
  match ts with
  | [] => [t]
  | u :: r => if (due t <? due u)%N then t :: ts else u :: enqueue t r
  end.

Definition by_due (ts : list timer) : list timer :=
  fold_left (fun acc t => enqueue t acc) ts [].

(** The clock advances to [t]; every timer due by then runs. *)
Definition advance (t : N) (l : loop) : loop :=
  let ready := filter (fun x => (due x <=? t)%N) (timers l) in
  {| now := t;
     fresh := fresh l;
     timers := filter (fun x => negb (due x <=? t)%N) (timers l);
     invoked := (invoked l ++ map args (by_due ready))%list |}.

Inductive event : Type :=
| Call (a : A)
| Wait (dt : N).

Definition step (c : closure) (e : event) : closure :=
  match e with
  | Call a => call a c
  | Wait dt =>
      {| timeoutId := timeoutId c;
         world := advance (now (world c) + dt) (world c) |}
  end.

Definition run (es : list event) (c : closure) : closure :=
  fold_left step es c.

(** A freshly created wrapper: [timeoutId] unset, none of its timers
    pending, [func] not called yet. *)
Definition start (t0 : N) (id0 : positive) : closure :=
  {| timeoutId := None;
     world := {| now := t0; fresh := id0; timers := []; invoked := [] |} |}.

End Debounce.
End Debounce.

Arguments Debounce.Call {A} a.
Arguments Debounce.Wait {A} dt.
Arguments Debounce.handle {A} t.
Arguments Debounce.due {A} t.
Arguments Debounce.args {A} t.
Arguments Debounce.now {A} l.
Arguments Debounce.fresh {A} l.
Arguments Debounce.timers {A} l.
Arguments Debounce.invoked {A} l.
Arguments Debounce.timeoutId {A} c.
Arguments Debounce.world {A} c.
Arguments Debounce.setTimeout {A} a delay l.
Arguments Debounce.clearTimeout {A} id l.
Arguments Debounce.call {A} delay a c.
Arguments Debounce.advance {A} t l.
Arguments Debounce.step {A} delay c e.
Arguments Debounce.run {A} delay es c.

(** ** [download] *)

Record anchor : Type := { href : string; download_name : option string }.

(** How the request for the resource ends: [fetch] rejects, reading the
    body rejects, or the blob arrives (named by the URL
    [URL.createObjectURL] gives it). *)
Inductive fetch_outcome : Type :=
| FetchRejected (reason : any)
| BlobRejected (reason : any)
| BlobReady (blobURL : string).

Record page : Type :=
  { fetched : list string;
    body : list anchor;
    clicked : list anchor;
    logged : console }.

(** [s.replace(" ", "_")]: a string pattern replaces its first occurrence
    only. *)
Fixpoint replace_first_space (s : string) : string :=
  match s with
  | EmptyString => EmptyString
  | String a r =>
      if Ascii.eqb a " "%char then String "_"%char r
      else String a (replace_first_space r)
  end.

(** The [then] callback receiving the blob. *)
Definition on_blob (filename : option string) (blobURL : string) (p : page)
  : page :=
  let a :=
    {| href := blobURL;
       download_name :=
         match filename with
         | Some f =>
             if negb (String.eqb f "") && negb (Nat.eqb (String.length f) 0)
             then Some (replace_first_space f ++ ".png")
             else None
         | None => None
         end |} in
  {| fetched := fetched p;
     body := (body p ++ [a])%list;
     clicked := (clicked p ++ [a])%list;
     logged := logged p |}.

(** The [catch] callback: [console.log({ error })]. *)
Definition on_rejection (error : any) (p : page) : page :=
  {| fetched := fetched p;
     body := body p;
     clicked := clicked p;
     logged := (logged p ++ [ConsoleLog [("error", error)]])%list |}.

Definition settle (filename : option string) (o : fetch_outcome) (p : page)
  : page :=
  match o with
  | FetchRejected e | BlobRejected e => on_rejection e p
  | BlobReady u => on_blob filename u p
  end.

(** [download]: the completion of the call itself, and the page once the
    promise chain has settled. *)
Definition download (url : string) (filename : option string)
    (net : string -> fetch_outcome) (p : page) : completion unit * page :=
  if String.eqb url "" then
    (Throw (new_Error "Resource URL not provided! You need to provide one"), p)
  else
    let p' :=
      {| fetched := (fetched p ++ [url])%list;
         body := body p;
         clicked := clicked p;
         logged := logged p |} in
    (Return tt, settle filename (net url) p').

(** ** Vocabulary of the statements *)

(** Keys as data usually has them: no mapping, at any depth, has a key
    named [hasOwnProperty] or [__proto__]. *)
Fixpoint ordinary (v : value) : Prop :=
  match v with
  | VObj ps =>
      Props.has "hasOwnProperty" ps = false /\
      Props.has "__proto__" ps = false /\
      (fix all (l : list (string * value)) : Prop :=
         match l with
         | [] => True
         | (_, x) :: r => ordinary x /\ all r
         end) ps
  | VArr xs =>
      (fix all (l : list value) : Prop :=
         match l with
         | [] => True
         | x :: r => ordinary x /\ all r
         end) xs
  | _ => True
  end.

(** The value [deepMergeObjects] returns when no step throws and no key is
    [__proto__]: the loop with its plain assignments only.  On [ordinary]
    arguments it is what the function returns (lemma
    [deepMergeObjects_returns]); the proofs go through it. *)
Fixpoint deep_merge (obj1 obj2 : value) {struct obj1} : value :=
  match obj2 with
  | VNull | VUndefined => obj1
  | _ =>
      match obj1 with
      | VObj ps =>
          VObj ((fix loop (es : list (string * value))
                     (output : Props.props value) {struct es} :=
                   match es with
                   | [] => output
                   | (key, v1) :: rest =>
                       loop rest
                         (Props.set key
                            (if mergeable v1 && mergeable (member obj2 key)
                             then deep_merge v1 (member obj2 key)
                             else v1)
                            output)
                   end) ps (spread obj2))
      | VArr xs =>
          VObj ((fix loop (es : list value) (i : N)
                     (output : Props.props value) {struct es} :=
                   match es with
                   | [] => output
                   | v1 :: rest =>
                       loop rest (N.succ i)
                         (Props.set (Key.of_index i)
                            (if mergeable v1
                                && mergeable (member obj2 (Key.of_index i))
                             then deep_merge v1
                                    (member obj2 (Key.of_index i))
                             else v1)
                            output)
                   end) xs 0%N (spread obj2))
      | VStr s =>
          VObj (fold_left (fun output e => Props.set (fst e) (snd e) output)
                  (indexed 0 (chars s)) (spread obj2))
      | _ => VObj (spread obj2)
      end
  end.

(** The value the merge loop stores at [key] for [obj1[key] = v1]. *)
Definition merged (obj2 : value) (key : string) (v1 : value) : value :=
  if mergeable v1 && mergeable (member obj2 key)
  then deep_merge v1 (member obj2 key)
  else v1.

(** One round of the loop [for (let key in obj1)]. *)
Definition merge_entry (obj2 : value) (output : Props.props value)
    (e : string * value) : Props.props value :=
  Props.set (fst e) (merged obj2 (fst e) (snd e)) output.

(** [obj2] passes the test [obj2 === null || obj2 === undefined]. *)
Definition absent (obj2 : value) : bool :=
  match obj2 with VNull | VUndefined => true | _ => false end.

(** Scalars: everything that is neither a mapping nor an array. *)
Definition scalar (v : value) : bool :=
  match v with VArr _ | VObj _ => false | _ => true end.


(** The two shapes [handleError] tells apart: an [Error] instance or a
    string on one side, everything else on the other. *)
Definition known_shape (error : any) : bool :=
  match error with
  | AnError _ _ => true
  | AValue (VStr _) => true
  | AValue _ => false
  end.



Definition ascii_only (s : string) : bool :=
  forallb (fun c => (c <? 128)%N) (code_units s).

Fixpoint spaceless (s : string) : bool :=
  match s with
  | EmptyString => true
  | String a r => negb (Ascii.eqb a " "%char) && spaceless r
  end.




(** [k] is one of [keysToRemove]. *)
Definition removed (keysToRemove : list string) (k : string) : bool :=
  existsb (String.eqb k) keysToRemove.

(** The keys of the query string [removeKeysFromQuery] returns. *)
Definition remaining_keys (searchParams : string) (keysToRemove : list string)
  : list string :=
  map fst (Qs.emitted false (removeKeysFromQuery_params searchParams keysToRemove)).

(** What [stringify] writes for a value under [skipNulls]: the string
    itself, the decimal spelling of a number, nothing for [null] and
    [undefined]. *)
Definition rendered (v : qvalue) : option string :=
  match v with
  | QStr s => Some s
  | QNum n => Some (Json.of_number n)
  | QNull | QUndefined => None
  end.

(** The wrapper's pending schedule: none, or the one timer [timeoutId]
    names. *)
Definition one_pending {A : Type} (c : Debounce.closure A) : Prop :=
  match Debounce.timers (Debounce.world c) with
  | [] => True
  | [t] => Debounce.timeoutId c = Some (Debounce.handle t)
  | _ => False
  end.

(** The wrapper waits to pass [a] to [func], a full [delay] from now. *)
Definition armed {A : Type} (delay : N) (c : Debounce.closure A) (a : A) : Prop :=
  exists t,
    Debounce.timers (Debounce.world c) = [t] /\
    Debounce.args t = a /\
    Debounce.due t = (Debounce.now (Debounce.world c) + delay)%N /\
    Debounce.timeoutId c = Some (Debounce.handle t).

(** A burst of calls: the first one, then each further call after its
    gap. *)
Definition burst {A : Type} (a0 : A) (gaps : list (N * A))
  : list (Debounce.event A) :=
  Debounce.Call a0
    :: flat_map (fun g => [Debounce.Wait (fst g); Debounce.Call (snd g)]) gaps.

(** ** [getImageSize] *)

(** Converting an object to a primitive calls its [toString] method.  No
    value is a function, so a property [toString] of the object's own hides
    the inherited method and leaves nothing to call: the conversion throws
    (the message is the engine's). *)
Definition not_primitive : any :=
  AnError "TypeError" "Cannot convert object to primitive value".

(** [String(v)]: the property key a value stands for when it indexes an
    object.  An array is the join of its elements, converted in turn. *)
Fixpoint to_string (v : value) : completion string :=
  match v with
  | VUndefined => Return "undefined"
  | VNull => Return "null"
  | VBool true => Return "true"
  | VBool false => Return "false"
  | VNum n => Return (Json.of_number n)
  | VStr s => Return s
  | VArr xs =>
      match
        (fix each (l : list value) : completion (list string) :=
           match l with
           | [] => Return []
           | x :: r =>
               match
                 match x with
                 | VUndefined | VNull => Return ""
                 | _ => to_string x
                 end
               with
               | Throw e => Throw e
               | Return t =>
                   match each r with
                   | Throw e => Throw e
                   | Return ts => Return (t :: ts)
                   end
               end
           end) xs
      with
      | Throw e => Throw e
      | Return ts => Return (String.concat "," ts)
      end
  | VObj ps =>
      if Props.has "toString" ps then Throw not_primitive
      else Return "[object Object]"
  end.

(** [o.key]: reading a property of [null] or [undefined] throws a
    [TypeError] (the message is the engine's). *)
Definition read (o : value) (key : string) : completion value :=
  match o with
  | VUndefined =>
      Throw (AnError "TypeError"
               ("Cannot read properties of undefined (reading '" ++ key ++ "')"))
  | VNull =>
      Throw (AnError "TypeError"
               ("Cannot read properties of null (reading '" ++ key ++ "')"))
  | _ => Return (member o key)
  end.

(** [o?.[key]]. *)
Definition optional_member (o : value) (key : string) : value :=
  match o with
  | VUndefined | VNull => VUndefined
  | _ => member o key
  end.

(** [a || b]. *)
Definition or_else (a b : value) : value := if truthy a then a else b.

Inductive dimension : Type := Width | Height.

Definition dimension_key (d : dimension) : string :=
  match d with Width => "width" | Height => "height" end.

Section AspectRatios.

(** The table [aspectRatioOptions] of [@/constants], which the module
    imports: an object keyed by aspect ratio. *)
Variable aspectRatioOptions : Props.props value.

Definition getImageSize (type : string) (image : value) (dim : dimension)
  : completion value :=
  if String.eqb type "fill" then
    match read image "aspectRatio" with
    | Throw e => Throw e
    | Return ratio =>
        match to_string ratio with
        | Throw e => Throw e
        | Return key =>
            Return
              (or_else
                 (optional_member
                    (member (VObj aspectRatioOptions) key)
                    (dimension_key dim))
                 (VNum 1000))
        end
    end
  else
    Return (or_else (optional_member image (dimension_key dim)) (VNum 1000)).

End AspectRatios.

(** ** Vocabulary: numbers and query strings as they are usually met *)




(** The characters a query string carries as they are: letters, digits,
    [-], [.], [_] and [~]. *)
Definition unreserved (a : ascii) : bool :=
  let c := N_of_ascii a in
  ((48 <=? c) && (c <=? 57) || (65 <=? c) && (c <=? 90)
   || (97 <=? c) && (c <=? 122)
   || (c =? 45) || (c =? 46) || (c =? 95) || (c =? 126))%N.

Fixpoint plain_text (s : string) : bool :=
  match s with
  | EmptyString => true
  | String a r => unreserved a && plain_text r
  end.

(** The names [Object.prototype] has: the query-string library does not
    read a parameter so named. *)
Definition prototype_name (k : string) : bool :=
  existsb (String.eqb k)
    ["constructor"; "hasOwnProperty"; "isPrototypeOf"; "propertyIsEnumerable";
     "toLocaleString"; "toString"; "valueOf"; "__proto__";
     "__defineGetter__"; "__defineSetter__"; "__lookupGetter__";
     "__lookupSetter__"].

Definition flat_key (k : string) : bool :=
  negb (String.eqb k "") && plain_text k.

Definition flat_pair (kv : string * string) : bool :=
  flat_key (fst kv) && negb (prototype_name (fst kv)) && plain_text (snd kv).

(** A flat query: parameters with distinct, plainly written keys and plainly
    written values, no more of them than the library reads (1000).  On
    these the model of the library is the library. *)
Definition flat_query (l : list (string * string)) : Prop :=
  NoDup (map fst l) /\ forallb flat_pair l = true /\ List.length l <= 1000.


(** [c] does not occur in [s]. *)
Fixpoint lacks (c : ascii) (s : string) : bool :=
  match s with
  | EmptyString => true
  | String a r => negb (Ascii.eqb a c) && lacks c r
  end.

(** A parameter that reads back as written: a key that is not empty, plain
    key and value. *)
Definition splittable (kv : string * string) : bool :=
  flat_key (fst kv) && plain_text (snd kv).

(** The query string that lists the parameters [l]. *)
Definition query_of (l : list (string * string)) : string :=
  String.concat "&" (map (fun kv => fst kv ++ "=" ++ snd kv) l).

(** The object holding the parameters [l], assigned in the order listed. *)
Definition object_of (l : list (string * string)) : Props.props qvalue :=
  fold_left (fun o kv => Props.set (fst kv) (QStr (snd kv)) o) l [].

(** The parameters an object gives when written out: each key with the
    text of its value, in the object's order, keys without a text left
    out. *)
Definition written (o : Props.props qvalue) : list (string * string) :=
  flat_map (fun e => match rendered (snd e) with
                     | Some t => [(fst e, t)]
                     | None => []
                     end) o.

(** ** More vocabulary *)

(** The value found by following a path of keys through nested mappings. *)
Fixpoint at_path (p : list string) (v : value) : option value :=
  match p with
  | [] => Some v
  | k :: r =>
      match v with
      | VObj ps =>
          match Props.get k ps with
          | Some x => at_path r x
          | None => None
          end
      | _ => None
      end
  end.

(** Every mapping met along the path holds each of its keys once. *)
Fixpoint keys_once_along (p : list string) (v : value) : Prop :=
  match p with
  | [] => True
  | k :: r =>
      match v with
      | VObj ps =>
          NoDup (Props.keys ps) /\
          match Props.get k ps with
          | Some x => keys_once_along r x
          | None => True
          end
      | _ => True
      end
  end.

(** Mappings all the way down, with no array anywhere, each listing its
    keys as an object keeps them. *)
Fixpoint array_free (v : value) : Prop :=
  match v with
  | VObj ps =>
      Props.ordered ps /\
      (fix all (l : list (string * value)) : Prop :=
         match l with
         | [] => True
         | (_, x) :: r => array_free x /\ all r
         end) ps
  | VArr _ => False
  | _ => True
  end.

Fixpoint depth (v : value) : nat :=
  match v with
  | VObj ps =>
      S ((fix deepest (l : list (string * value)) : nat :=
            match l with
            | [] => 0
            | (_, x) :: r => Nat.max (depth x) (deepest r)
            end) ps)
  | VArr xs =>
      S ((fix deepest (l : list value) : nat :=
            match l with
            | [] => 0
            | x :: r => Nat.max (depth x) (deepest r)
            end) xs)
  | _ => 0
  end.

(** [l] is [l'] with some elements left out. *)
Inductive subsequence {A : Type} : list A -> list A -> Prop :=
| subsequence_nil : subsequence [] []
| subsequence_skip x l l' : subsequence l l' -> subsequence l (x :: l')
| subsequence_take x l l' : subsequence l l' -> subsequence (x :: l) (x :: l').

(** The arguments of the calls among the events, in order. *)
Definition calls_of {A : Type} (es : list (Debounce.event A)) : list A :=
  flat_map (fun e => match e with
                     | Debounce.Call a => [a]
                     | Debounce.Wait _ => []
                     end) es.

(** Calls that each wait out their gap before the next one. *)
Definition spaced {A : Type} (calls : list (A * N)) : list (Debounce.event A) :=
  flat_map (fun c => [Debounce.Call (fst c); Debounce.Wait (snd c)]) calls.

(** The arguments waiting in the wrapper's timers. *)
Definition pending_args {A : Type} (c : Debounce.closure A) : list A :=
  map Debounce.args (Debounce.timers (Debounce.world c)).

(** * Properties *)

(** ** The definitions at work *)

Example array_index_examples :
  Key.array_index "0" = Some 0%N /\
  Key.array_index "10" = Some 10%N /\
  Key.array_index "4294967294" = Some 4294967294%N /\
  Key.array_index "4294967295" = None /\
  Key.array_index "01" = None /\
  Key.array_index "1a" = None /\
  Key.array_index "" = None.
Proof. repeat split; reflexivity. Qed.

Example set_keeps_object_order :
  Props.keys
    (Props.set "1" tt (Props.set "b" tt (Props.set "7" tt (Props.set "a" tt []))))
  = ["1"; "7"; "a"; "b"].
Proof. reflexivity. Qed.

Example deepMergeObjects_example :
  deepMergeObjects
    (VObj [("title", VStr "mine"); ("crop", VObj [("w", VNum 4)])])
    (VObj [("crop", VObj [("w", VNum 1); ("h", VNum 2)]); ("title", VStr "def");
           ("color", VStr "red")])
  = Return
      (VObj [("crop", VObj [("w", VNum 4); ("h", VNum 2)]); ("title", VStr "mine");
             ("color", VStr "red")]).
Proof. reflexivity. Qed.

Example stringify_example :
  Json.stringify
    (VObj [("a", VArr [VNum (-3); VUndefined; VStr "x"]); ("u", VUndefined);
           ("b", VBool true)])
  = Some (String.concat (String Json.dquote EmptyString)
            ["{"; "a"; ":[-3,null,"; "x"; "],"; "b"; ":true}"]).
Proof. reflexivity. Qed.

Example base64_examples :
  Base64.encode (code_units "f") = "Zg==" /\
  Base64.encode (code_units "fo") = "Zm8=" /\
  Base64.encode (code_units "foo") = "Zm9v" /\
  Base64.encode (code_units "foobar") = "Zm9vYmFy".
Proof. repeat split; reflexivity. Qed.

Example parse_example :
  Qs.parse "type=fill&color=red&page=" =
  [("type", QStr "fill"); ("color", QStr "red"); ("page", QStr "")].
Proof. reflexivity. Qed.

Example formUrlQuery_overwrites :
  formUrlQuery "/gallery" "type=fill&color=blue&page=2" "color" (QStr "red")
  = "/gallery?type=fill&color=red&page=2".
Proof. reflexivity. Qed.

Example formUrlQuery_skips_null :
  formUrlQuery "/gallery" "type=fill&color=blue" "color" QNull
  = "/gallery?type=fill".
Proof. reflexivity. Qed.

Example replace_first_space_example :
  replace_first_space "my great pic" = "my_great pic".
Proof. reflexivity. Qed.

(** ** Objects: reading after writing *)

Module PropsFacts.
Section PropsFacts.

Context {V : Type}.
Implicit Types (o : Props.props V) (k : string) (v : V).

Lemma has_true_iff k o : Props.has k o = true <-> In k (Props.keys o).
Proof.
  unfold Props.has. induction o as [|[k' v'] r IH]; simpl.
  - split; [discriminate | tauto].
  - destruct (String.eqb_spec k k') as [->|Hne].
    + split; auto.
    + rewrite IH. split; [auto | intros [H|H]; [congruence | exact H]].
Qed.

Lemma has_false_iff k o : Props.has k o = false <-> ~ In k (Props.keys o).
Proof.
  rewrite <- has_true_iff. destruct (Props.has k o); split; congruence.
Qed.

Lemma get_none_iff k o : Props.get k o = None <-> ~ In k (Props.keys o).
Proof.
  rewrite <- has_false_iff. unfold Props.has.
  destruct (Props.get k o); split; congruence.
Qed.

Lemma get_app_fresh j k v o :
  Props.get j (o ++ [(k, v)])%list =
  match Props.get j o with
  | Some x => Some x
  | None => if String.eqb j k then Some v else None
  end.
Proof.
  induction o as [|[k' v'] r IH]; simpl; [reflexivity|].
  destruct (String.eqb j k'); auto.
Qed.

Lemma get_replace j k v o :
  Props.get j (Props.replace k v o) =
  if String.eqb j k && Props.has k o then Some v else Props.get j o.
Proof.
  unfold Props.has. induction o as [|[k' v'] r IH]; simpl.
  - now rewrite andb_false_r.
  - destruct (String.eqb_spec k k') as [->|Hne]; simpl.
    + destruct (String.eqb_spec j k'); reflexivity.
    + rewrite IH. destruct (String.eqb_spec j k') as [->|Hj].
      * destruct (String.eqb_spec k' k); [congruence | reflexivity].
      * reflexivity.
Qed.

Lemma get_insert_index j n k v o :
  Props.has k o = false ->
  Props.get j (Props.insert_index n k v o) =
  if String.eqb j k then Some v else Props.get j o.
Proof.
  unfold Props.has.
  induction o as [|[k' v'] r IH]; simpl; intros Hk; [reflexivity|].
  destruct (Key.array_index k') as [m|]; simpl; [|reflexivity].
  destruct (m <=? n)%N; simpl; [|reflexivity].
  destruct (String.eqb_spec k k') as [->|Hne]; [discriminate|].
  rewrite (IH Hk). destruct (String.eqb_spec j k) as [->|Hj]; [|reflexivity].
  destruct (String.eqb_spec k k'); [congruence | reflexivity].
Qed.

(** [o[k] = v; o[j]]. *)
Lemma get_set j k v o :
  Props.get j (Props.set k v o) =
  if String.eqb j k then Some v else Props.get j o.
Proof.
  unfold Props.set. destruct (Props.has k o) eqn:Hh.
  - rewrite get_replace, Hh, andb_true_r. reflexivity.
  - unfold Props.define. destruct (Key.array_index k) as [n|] eqn:Hk.
    + now apply get_insert_index.
    + rewrite get_app_fresh. destruct (String.eqb_spec j k) as [->|Hj].
      * unfold Props.has in Hh. destruct (Props.get k o); [discriminate | reflexivity].
      * destruct (Props.get j o); reflexivity.
Qed.

Lemma get_set_same k v o : Props.get k (Props.set k v o) = Some v.
Proof. now rewrite get_set, String.eqb_refl. Qed.

Lemma get_set_other j k v o :
  j <> k -> Props.get j (Props.set k v o) = Props.get j o.
Proof.
  intros H. rewrite get_set. now destruct (String.eqb_spec j k).
Qed.

(** [delete o[k]; o[j]]. *)
Lemma get_delete j k o :
  Props.get j (Props.delete k o) =
  if String.eqb j k then None else Props.get j o.
Proof.
  unfold Props.delete. induction o as [|[k' v'] r IH]; simpl.
  - now destruct (String.eqb j k).
  - destruct (String.eqb_spec k k') as [->|Hne]; simpl.
    + rewrite IH. destruct (String.eqb_spec j k'); reflexivity.
    + rewrite IH. destruct (String.eqb_spec j k') as [->|Hj]; [|reflexivity].
      destruct (String.eqb_spec k' k); [congruence | reflexivity].
Qed.

(** ** Objects: the order of the keys *)

Lemma keys_replace k v o : Props.keys (Props.replace k v o) = Props.keys o.
Proof.
  unfold Props.keys. induction o as [|[k' v'] r IH]; simpl; [reflexivity|].
  destruct (String.eqb k k'); simpl; congruence.
Qed.

Lemma keys_app o o' : Props.keys (o ++ o')%list = (Props.keys o ++ Props.keys o')%list.
Proof. apply map_app. Qed.

(** A new index key lands somewhere among the keys; the others keep
    their places. *)
Lemma keys_insert_index n k v o :
  exists l1 l2,
    Props.keys o = (l1 ++ l2)%list /\
    Props.keys (Props.insert_index n k v o) = (l1 ++ k :: l2)%list.
Proof.
  induction o as [|[k' v'] r IH]; simpl.
  - exists [], []. split; reflexivity.
  - destruct (Key.array_index k') as [m|].
    + destruct (m <=? n)%N.
      * destruct IH as (l1 & l2 & H1 & H2).
        exists (k' :: l1), l2. simpl. rewrite H1, H2. split; reflexivity.
      * exists [], (k' :: Props.keys r). split; reflexivity.
    + exists [], (k' :: Props.keys r). split; reflexivity.
Qed.

Lemma keys_define k v o :
  exists l1 l2,
    Props.keys o = (l1 ++ l2)%list /\
    Props.keys (Props.define k v o) = (l1 ++ k :: l2)%list.
Proof.
  unfold Props.define. destruct (Key.array_index k).
  - apply keys_insert_index.
  - exists (Props.keys o), []. rewrite List.app_nil_r, keys_app. split; reflexivity.
Qed.


Lemma NoDup_keys_set k v o :
  NoDup (Props.keys o) -> NoDup (Props.keys (Props.set k v o)).
Proof.
  intros Hnd. unfold Props.set. destruct (Props.has k o) eqn:Hh.
  - now rewrite keys_replace.
  - apply has_false_iff in Hh.
    destruct (keys_define k v o) as (l1 & l2 & H1 & ->).
    rewrite H1 in Hnd, Hh. apply (NoDup_Add (Add_app k l1 l2)). split; assumption.
Qed.

Lemma keys_delete k o :
  Props.keys (Props.delete k o) =
  filter (fun j => negb (String.eqb k j)) (Props.keys o).
Proof.
  unfold Props.keys, Props.delete.
  induction o as [|[k' v'] r IH]; simpl; [reflexivity|].
  destruct (String.eqb k k'); simpl; congruence.
Qed.

Lemma NoDup_keys_filter (f : string * V -> bool) o :
  NoDup (Props.keys o) -> NoDup (Props.keys (filter f o)).
Proof.
  unfold Props.keys. induction o as [|[k' v'] r IH]; simpl; intros H.
  - constructor.
  - inversion H as [|? ? Hni Hr]; subst. destruct (f (k', v')); simpl; auto.
    constructor; auto. intros Hin. apply Hni.
    apply in_map_iff in Hin. destruct Hin as (e & He & Hin).
    apply filter_In in Hin. apply in_map_iff. exists e. tauto.
Qed.

(** With every key held once, reading a key finds its entry. *)
Lemma get_In k v o :
  NoDup (Props.keys o) -> In (k, v) o -> Props.get k o = Some v.
Proof.
  induction o as [|[k' v'] r IH]; simpl; intros Hnd Hin; [tauto|].
  inversion Hnd as [|? ? Hni Hr]; subst.
  destruct Hin as [Heq|Hin].
  - injection Heq as -> ->. now rewrite String.eqb_refl.
  - destruct (String.eqb_spec k k') as [->|Hne]; auto.
    exfalso. apply Hni. change k' with (fst (k', v)). now apply in_map.
Qed.

Lemma In_get k v o : Props.get k o = Some v -> In (k, v) o.
Proof.
  induction o as [|[k' v'] r IH]; simpl; [discriminate|].
  destruct (String.eqb_spec k k') as [->|Hne]; intros H.
  - injection H as ->. now left.
  - right. auto.
Qed.

End PropsFacts.
End PropsFacts.

(** ** The merge loop as a fold *)

Lemma deep_merge_absent obj1 obj2 :
  absent obj2 = true -> deep_merge obj1 obj2 = obj1.
Proof.
  destruct obj2; try discriminate; intros _; destruct obj1; reflexivity.
Qed.

Lemma deep_merge_object ps obj2 :
  absent obj2 = false ->
  deep_merge (VObj ps) obj2 =
  VObj (fold_left (merge_entry obj2) ps (spread obj2)).
Proof.
  intros Hp.
  assert (Hloop : forall out,
    (fix loop (es : list (string * value)) (output : Props.props value)
       {struct es} : Props.props value :=
       match es with
       | [] => output
       | (key, v1) :: rest =>
           loop rest
             (Props.set key
                (if mergeable v1 && mergeable (member obj2 key)
                 then deep_merge v1 (member obj2 key)
                 else v1) output)
       end) ps out = fold_left (merge_entry obj2) ps out).
  { induction ps as [|[k v] r IH]; intros out; simpl; [reflexivity|].
    rewrite IH. reflexivity. }
  destruct obj2; try discriminate; simpl; now rewrite Hloop.
Qed.

Lemma deep_merge_array xs obj2 :
  absent obj2 = false ->
  deep_merge (VArr xs) obj2 =
  VObj (fold_left (merge_entry obj2) (indexed 0 xs) (spread obj2)).
Proof.
  intros Hp.
  assert (Hloop : forall i out,
    (fix loop (es : list value) (i : N) (output : Props.props value)
       {struct es} : Props.props value :=
       match es with
       | [] => output
       | v1 :: rest =>
           loop rest (N.succ i)
             (Props.set (Key.of_index i)
                (if mergeable v1 && mergeable (member obj2 (Key.of_index i))
                 then deep_merge v1 (member obj2 (Key.of_index i))
                 else v1) output)
       end) xs i out = fold_left (merge_entry obj2) (indexed i xs) out).
  { induction xs as [|x r IH]; intros i out; simpl; [reflexivity|].
    rewrite IH. reflexivity. }
  destruct obj2; try discriminate; simpl; now rewrite Hloop.
Qed.

(** What the finished loop holds at a key. *)
Lemma get_fold_merge obj2 k ps out :
  NoDup (Props.keys ps) ->
  Props.get k (fold_left (merge_entry obj2) ps out) =
  match Props.get k ps with
  | Some v1 => Some (merged obj2 k v1)
  | None => Props.get k out
  end.
Proof.
  revert out. induction ps as [|[k' v'] r IH]; intros out Hnd; simpl.
  - reflexivity.
  - inversion Hnd as [|? ? Hni Hr]; subst.
    rewrite (IH _ Hr). unfold merge_entry at 1. simpl.
    destruct (String.eqb_spec k k') as [->|Hne].
    + apply PropsFacts.get_none_iff in Hni. rewrite Hni.
      apply PropsFacts.get_set_same.
    + destruct (Props.get k r); [reflexivity|].
      now apply PropsFacts.get_set_other.
Qed.

Lemma mergeable_not_scalar v : mergeable v = true -> scalar v = false.
Proof.
  unfold mergeable. destruct v; simpl; rewrite ?andb_false_r; intros H;
    (discriminate || reflexivity).
Qed.

Lemma merged_scalar obj2 k v1 : scalar v1 = true -> merged obj2 k v1 = v1.
Proof.
  intros H. unfold merged. destruct (mergeable v1) eqn:Hm; [|reflexivity].
  apply mergeable_not_scalar in Hm. congruence.
Qed.



(** ** [deepMergeObjects] on ordinary arguments *)

Lemma deepMergeObjects_absent obj1 obj2 :
  absent obj2 = true -> deepMergeObjects obj1 obj2 = Return obj1.
Proof.
  destruct obj2; try discriminate; intros _; destruct obj1; reflexivity.
Qed.

Lemma of_index_not_proto i : String.eqb (Key.of_index i) "__proto__" = false.
Proof. unfold Key.of_index. destruct (N.to_uint i); reflexivity. Qed.

Lemma assign_set key v out :
  String.eqb key "__proto__" = false -> assign key v out = Props.set key v out.
Proof. intros H. unfold assign. now rewrite H. Qed.

Lemma key_not_proto k (v : value) ps :
  Props.has "__proto__" ps = false -> In (k, v) ps ->
  String.eqb k "__proto__" = false.
Proof.
  intros Hh Hin. apply String.eqb_neq. intros ->.
  apply PropsFacts.has_false_iff in Hh. apply Hh.
  change "__proto__" with (fst ("__proto__", v)). now apply in_map.
Qed.

Lemma fold_assign_indexed xs : forall i out,
  fold_left (fun output e => assign (fst e) (snd e) output) (indexed i xs) out
  = fold_left (fun output e => Props.set (fst e) (snd e) output) (indexed i xs) out.
Proof.
  induction xs as [|x r IH]; intros i out; simpl; [reflexivity|].
  now rewrite assign_set, IH by apply of_index_not_proto.
Qed.

(** One level of a mapping: when the nested merges return what
    [deep_merge] says, so does the merge of the mapping. *)
Lemma deepMergeObjects_level ps obj2 :
  absent obj2 = false ->
  Props.has "hasOwnProperty" ps = false ->
  Props.has "__proto__" ps = false ->
  (forall k v,
      In (k, v) ps ->
      mergeable v && mergeable (member obj2 k) = true ->
      deepMergeObjects v (member obj2 k) = Return (deep_merge v (member obj2 k))) ->
  deepMergeObjects (VObj ps) obj2 = Return (deep_merge (VObj ps) obj2).
Proof.
  intros Hp Hown Hproto Hnested.
  rewrite deep_merge_object by exact Hp.
  assert (Hloop : forall es out,
    (forall k v, In (k, v) es -> In (k, v) ps) ->
    (fix loop (es : list (string * value)) (output : Props.props value)
       {struct es} : completion value :=
       match es with
       | [] => Return (VObj output)
       | (key, v1) :: rest =>
           if Props.has "hasOwnProperty" ps then Throw not_a_function
           else
             match
               (if mergeable v1 && mergeable (member obj2 key)
                then deepMergeObjects v1 (member obj2 key)
                else Return v1)
             with
             | Return v => loop rest (assign key v output)
             | Throw e => Throw e
             end
       end) es out = Return (VObj (fold_left (merge_entry obj2) es out))).
  { induction es as [|[k v1] es IH]; intros out Hsub; [reflexivity|].
    cbn [fold_left].
    rewrite <- IH by (intros k' v' H'; apply Hsub; now right).
    assert (Hin : In (k, v1) ps) by (apply Hsub; now left).
    assert (Hv : (if mergeable v1 && mergeable (member obj2 k)
                  then deepMergeObjects v1 (member obj2 k)
                  else Return v1) = Return (merged obj2 k v1)).
    { unfold merged.
      destruct (mergeable v1 && mergeable (member obj2 k)) eqn:Hm; [|reflexivity].
      now apply Hnested. }
    unfold merge_entry at 1. cbn [fst snd].
    rewrite <- (assign_set k _ out (key_not_proto k v1 ps Hproto Hin)).
    destruct (Props.has "hasOwnProperty" ps); [discriminate|].
    now rewrite Hv. }
  destruct obj2; try discriminate; simpl; apply Hloop; auto.
Qed.

Lemma deepMergeObjects_array_level xs obj2 :
  absent obj2 = false ->
  (forall v k,
      In v xs ->
      mergeable v && mergeable (member obj2 k) = true ->
      deepMergeObjects v (member obj2 k) = Return (deep_merge v (member obj2 k))) ->
  deepMergeObjects (VArr xs) obj2 = Return (deep_merge (VArr xs) obj2).
Proof.
  intros Hp Hnested.
  rewrite deep_merge_array by exact Hp.
  assert (Hloop : forall es i out,
    (forall v, In v es -> In v xs) ->
    (fix loop (es : list value) (i : N) (output : Props.props value)
       {struct es} : completion value :=
       match es with
       | [] => Return (VObj output)
       | v1 :: rest =>
           match
             (if mergeable v1 && mergeable (member obj2 (Key.of_index i))
              then deepMergeObjects v1 (member obj2 (Key.of_index i))
              else Return v1)
           with
           | Return v => loop rest (N.succ i) (assign (Key.of_index i) v output)
           | Throw e => Throw e
           end
       end) es i out
    = Return (VObj (fold_left (merge_entry obj2) (indexed i es) out))).
  { induction es as [|v1 es IH]; intros i out Hsub; [reflexivity|].
    cbn [fold_left indexed].
    rewrite <- IH by (intros v' H'; apply Hsub; now right).
    assert (Hv : (if mergeable v1 && mergeable (member obj2 (Key.of_index i))
                  then deepMergeObjects v1 (member obj2 (Key.of_index i))
                  else Return v1) = Return (merged obj2 (Key.of_index i) v1)).
    { unfold merged.
      destruct (mergeable v1 && mergeable (member obj2 (Key.of_index i))) eqn:Hm;
        [|reflexivity].
      apply Hnested; [apply Hsub; now left | exact Hm]. }
    unfold merge_entry at 1. cbn [fst snd].
    rewrite <- (assign_set _ _ out (of_index_not_proto i)).
    now rewrite Hv. }
  destruct obj2; try discriminate; simpl; apply Hloop; auto.
Qed.

Lemma depth_entry k x ps : In (k, x) ps -> depth x < depth (VObj ps).
Proof.
  simpl. induction ps as [|[k' x'] r IH]; simpl; intros Hin; [contradiction|].
  destruct Hin as [[= -> ->]|Hin]; [lia|]. specialize (IH Hin). lia.
Qed.

Lemma depth_element x xs : In x xs -> depth x < depth (VArr xs).
Proof.
  simpl. induction xs as [|x' r IH]; simpl; intros Hin; [contradiction|].
  destruct Hin as [->|Hin]; [lia|]. specialize (IH Hin). lia.
Qed.

Lemma ordinary_entry k x ps : ordinary (VObj ps) -> In (k, x) ps -> ordinary x.
Proof.
  simpl. intros (_ & _ & Hall).
  induction ps as [|[k' x'] r IH]; simpl; intros Hin; [contradiction|].
  destruct Hall as [Hx Hr]. destruct Hin as [[= -> ->]|Hin]; auto.
Qed.

Lemma ordinary_element x xs : ordinary (VArr xs) -> In x xs -> ordinary x.
Proof.
  simpl. induction xs as [|x' r IH]; simpl; intros Hall Hin; [contradiction|].
  destruct Hall as [Hx Hr]. destruct Hin as [->|Hin]; auto.
Qed.

Lemma deepMergeObjects_returns_bounded n :
  forall obj1 obj2,
    depth obj1 <= n -> ordinary obj1 ->
    deepMergeObjects obj1 obj2 = Return (deep_merge obj1 obj2).
Proof.
  induction n as [|n IH]; intros obj1 obj2 Hd Hord;
    (destruct (absent obj2) eqn:Hab;
     [now rewrite deepMergeObjects_absent, deep_merge_absent|]);
    destruct obj1 as [| | | | |xs|ps];
    try (destruct obj2; try discriminate; reflexivity);
    try (destruct obj2; try discriminate; simpl;
         now rewrite fold_assign_indexed);
    try (simpl in Hd; lia).
  - apply deepMergeObjects_array_level; [exact Hab|].
    intros v k Hin _. apply IH.
    + pose proof (depth_element v xs Hin). lia.
    + now apply (ordinary_element v xs).
  - apply deepMergeObjects_level; [exact Hab | apply Hord | apply Hord |].
    intros k v Hin _. apply IH.
    + pose proof (depth_entry k v ps Hin). lia.
    + now apply (ordinary_entry k v ps).
Qed.

(** On ordinary arguments nothing throws: the merge returns the value
    the loop builds. *)
Lemma deepMergeObjects_returns obj1 obj2 :
  ordinary obj1 -> deepMergeObjects obj1 obj2 = Return (deep_merge obj1 obj2).
Proof. now apply (deepMergeObjects_returns_bounded (depth obj1)). Qed.



(** ** Rebuilding an object key by key *)

Section Rebuild.

Context {V : Type}.
Implicit Types (o p : Props.props V) (k : string) (v : V).





End Rebuild.




(** C2.  The code does not keep [base]'s array.  An array passes the test
    [x && typeof x === "object"], so where [base] and [overlay] both hold an
    array the loop recurses into the two, and the recursive call builds a
    plain object from [{ ...obj2 }]: what is stored is a mapping over the
    indices, not [base]'s array, and not an array at all. *)
Theorem deepMergeObjects_arrays_become_mappings :
  deepMergeObjects (VObj [("a", VArr [VNum 1])])
                   (VObj [("a", VArr [VNum 2; VNum 3])])
  = Return (VObj [("a", VObj [("0", VNum 1); ("1", VNum 3)])]) /\
  (forall xs ys : list value,
      ordinary (VArr xs) ->
      exists ps, deepMergeObjects (VArr xs) (VArr ys) = Return (VObj ps)).
Proof.
  split; [reflexivity|].
  intros xs ys Hord. rewrite deepMergeObjects_returns by exact Hord.
  rewrite deep_merge_array by reflexivity. eexists. reflexivity.
Qed.

Lemma deepMergeObjects_arrays_become_mappings_witness :
  exists ps,
    deepMergeObjects (VArr [VStr "a"; VStr "b"]) (VArr [VStr "x"])
    = Return (VObj ps).
Proof.
  apply (proj2 deepMergeObjects_arrays_become_mappings).
  simpl. auto.
Defined.

(** ** [handleError] *)




(** ** The shimmer placeholder *)

Lemma code_units_app a b : code_units (a ++ b) = (code_units a ++ code_units b)%list.
Proof. induction a as [|c r IH]; simpl; congruence. Qed.

Lemma ascii_only_app a b : ascii_only (a ++ b) = ascii_only a && ascii_only b.
Proof. unfold ascii_only. now rewrite code_units_app, forallb_app. Qed.

Lemma ascii_only_cons c r :
  ascii_only (String c r) = (N_of_ascii c <? 128)%N && ascii_only r.
Proof. reflexivity. Qed.

Lemma utf8_ascii s : ascii_only s = true -> utf8 s = code_units s.
Proof.
  unfold ascii_only, utf8. induction s as [|c r IH]; simpl; [reflexivity|].
  intros H. apply andb_true_iff in H. destruct H as [Hc Hr].
  unfold utf8_unit at 1. rewrite Hc. simpl. now rewrite IH.
Qed.

Lemma ascii_only_digits d : ascii_only (NilEmpty.string_of_uint d) = true.
Proof. induction d; simpl; try reflexivity; rewrite ascii_only_cons, IHd; reflexivity. Qed.

Lemma ascii_only_number z : ascii_only (Json.of_number z) = true.
Proof.
  unfold Json.of_number, NilZero.string_of_int, NilZero.string_of_uint.
  destruct (Z.to_int z) as [d|d]; destruct d;
    rewrite ?ascii_only_cons, ?ascii_only_digits; reflexivity.
Qed.

Lemma ascii_only_shimmer w h : ascii_only (shimmer w h) = true.
Proof.
  unfold shimmer, q, nl.
  pose proof (ascii_only_number w) as Hw.
  pose proof (ascii_only_number h) as Hh.
  generalize dependent (Json.of_number h). intros H Hh.
  generalize dependent (Json.of_number w). intros W Hw.
  cbn [String.concat String.append].
  repeat (rewrite ?ascii_only_cons, ?ascii_only_app, ?Hw, ?Hh;
          cbn [String.append andb]).
  reflexivity.
Qed.

Lemma toBase64_runtime e1 e2 s :
  ascii_only s = true -> toBase64 e1 s = toBase64 e2 s.
Proof.
  intros H. destruct e1, e2; simpl; now rewrite ?(utf8_ascii s H).
Qed.

(** C8.  The placeholder depends on nothing but the width and the height:
    wherever it is evaluated, the same dimensions give the same data URL,
    and so the module's [dataUrl] is one fixed string. *)
Theorem shimmer_data_url_deterministic :
  (forall (e1 e2 : runtime) (w h : Z),
      shimmerDataUrl e1 w h = shimmerDataUrl e2 w h) /\
  (forall e1 e2 : runtime, dataUrl e1 = dataUrl e2).
Proof.
  assert (H : forall e1 e2 w h, shimmerDataUrl e1 w h = shimmerDataUrl e2 w h).
  { intros e1 e2 w h. unfold shimmerDataUrl. f_equal.
    apply toBase64_runtime, ascii_only_shimmer. }
  split; [exact H|]. intros e1 e2. apply H.
Qed.

(** ** [download] *)

Lemma replace_first_space_first pre post :
  spaceless pre = true ->
  replace_first_space (pre ++ " " ++ post) = pre ++ "_" ++ post.
Proof.
  change (" " ++ post) with (String " "%char post).
  change ("_" ++ post) with (String "_"%char post).
  induction pre as [|a r IH]; simpl; [reflexivity|].
  intros H. apply andb_true_iff in H. destruct H as [Ha Hr].
  apply negb_true_iff in Ha. rewrite Ha. now rewrite IH.
Qed.

Lemma replace_first_space_none s :
  spaceless s = true -> replace_first_space s = s.
Proof.
  induction s as [|a r IH]; simpl; [reflexivity|].
  intros H. apply andb_true_iff in H. destruct H as [Ha Hr].
  apply negb_true_iff in Ha. rewrite Ha. now rewrite IH.
Qed.

Lemma nonempty_passes_guard f :
  f <> "" -> negb (String.eqb f "") && negb (Nat.eqb (String.length f) 0) = true.
Proof. destruct f; [congruence | reflexivity]. Qed.

(** C9.  Given a non-empty filename, the anchor that is clicked saves the
    blob under the filename with its first space (and no other) turned into
    an underscore and [.png] appended; and when the request is rejected the
    call still completes normally, the only trace being the console entry. *)
Theorem download_names_file_and_drops_failures :
  forall (url filename : string) (net : string -> fetch_outcome) (p : page),
    url <> "" ->
    filename <> "" ->
    (forall blobURL,
        net url = BlobReady blobURL ->
        exists a,
          download url (Some filename) net p =
          (Return tt,
           {| fetched := (fetched p ++ [url])%list;
              body := (body p ++ [a])%list;
              clicked := (clicked p ++ [a])%list;
              logged := logged p |}) /\
          href a = blobURL /\
          download_name a = Some (replace_first_space filename ++ ".png")) /\
    (forall pre post,
        spaceless pre = true ->
        filename = pre ++ " " ++ post ->
        replace_first_space filename = pre ++ "_" ++ post) /\
    (spaceless filename = true -> replace_first_space filename = filename) /\
    (forall reason,
        net url = FetchRejected reason \/ net url = BlobRejected reason ->
        download url (Some filename) net p =
        (Return tt,
         {| fetched := (fetched p ++ [url])%list;
            body := body p;
            clicked := clicked p;
            logged := (logged p ++ [ConsoleLog [("error", reason)]])%list |})).
Proof.
  intros url filename net p Hurl Hname.
  apply String.eqb_neq in Hurl.
  repeat split.
  - intros blobURL Hnet.
    exists {| href := blobURL;
              download_name := Some (replace_first_space filename ++ ".png") |}.
    unfold download. rewrite Hurl, Hnet. simpl. unfold on_blob.
    rewrite (nonempty_passes_guard _ Hname). simpl. auto.
  - intros pre post Hpre ->. now apply replace_first_space_first.
  - apply replace_first_space_none.
  - intros reason [Hnet|Hnet]; unfold download; rewrite Hurl, Hnet; reflexivity.
Qed.

Lemma download_names_file_and_drops_failures_witness :
  (exists a,
      download "https://cdn/x" (Some "my great pic")
        (fun _ => BlobReady "blob:1")
        {| fetched := []; body := []; clicked := []; logged := [] |} =
      (Return tt,
       {| fetched := ["https://cdn/x"]; body := [a]; clicked := [a];
          logged := [] |}) /\
      download_name a = Some "my_great pic.png") /\
  download "https://cdn/x" (Some "my great pic")
    (fun _ => FetchRejected (AnError "TypeError" "Failed to fetch"))
    {| fetched := []; body := []; clicked := []; logged := [] |} =
  (Return tt,
   {| fetched := ["https://cdn/x"]; body := []; clicked := [];
      logged := [ConsoleLog [("error", AnError "TypeError" "Failed to fetch")]] |}).
Proof.
  split.
  - destruct (download_names_file_and_drops_failures
                "https://cdn/x" "my great pic" (fun _ => BlobReady "blob:1")
                {| fetched := []; body := []; clicked := []; logged := [] |})
      as (Hok & _); [discriminate | discriminate |].
    destruct (Hok "blob:1" eq_refl) as (a & Heq & _ & Hname).
    exists a. split; [exact Heq | exact Hname].
  - destruct (download_names_file_and_drops_failures
                "https://cdn/x" "my great pic"
                (fun _ => FetchRejected (AnError "TypeError" "Failed to fetch"))
                {| fetched := []; body := []; clicked := []; logged := [] |})
      as (_ & _ & _ & Hfail); [discriminate | discriminate |].
    apply Hfail. left. reflexivity.
Defined.

(** C10.  With an empty [url] the call throws at once, before anything is
    requested or touched; with any other [url] the call itself completes
    normally. *)
Theorem download_throws_iff_url_empty :
  forall (filename : option string) (net : string -> fetch_outcome) (p : page),
    download "" filename net p =
    (Throw (new_Error "Resource URL not provided! You need to provide one"), p)
    /\
    (forall url, url <> "" -> fst (download url filename net p) = Return tt).
Proof.
  intros filename net p. split; [reflexivity|].
  intros url Hurl. apply String.eqb_neq in Hurl.
  unfold download. now rewrite Hurl.
Qed.

Lemma download_throws_iff_url_empty_witness :
  fst (download "https://cdn/x" None (fun _ => BlobReady "blob:1")
         {| fetched := []; body := []; clicked := []; logged := [] |})
  = Return tt.
Proof.
  apply (proj2 (download_throws_iff_url_empty None (fun _ => BlobReady "blob:1")
                  {| fetched := []; body := []; clicked := []; logged := [] |})).
  discriminate.
Defined.

(** ** Objects: the order is kept *)

Lemma filter_filter {A : Type} (f g : A -> bool) (l : list A) :
  filter f (filter g l) = filter (fun e => g e && f e) l.
Proof.
  induction l as [|e r IH]; simpl; [reflexivity|].
  destruct (g e); simpl; [destruct (f e)|]; congruence.
Qed.

Lemma filter_all {A : Type} (f : A -> bool) (l : list A) :
  (forall e, In e l -> f e = true) -> filter f l = l.
Proof.
  induction l as [|e r IH]; simpl; intros H; [reflexivity|].
  rewrite (H e) by now left. f_equal. apply IH. intros e' He'. apply H. now right.
Qed.

Section Order.

Context {V : Type}.
Implicit Types (o : Props.props V) (k : string) (v : V).

Lemma sorted_snoc (R : string -> string -> Prop) l x :
  StronglySorted R l -> Forall (fun y => R y x) l ->
  StronglySorted R (l ++ [x])%list.
Proof.
  induction l as [|a l IH]; simpl; intros Hs Hall.
  - repeat constructor.
  - inversion Hs as [|? ? Hs' Ha]; subst.
    inversion Hall as [|? ? Hax Hall']; subst.
    constructor; [auto|]. apply Forall_app. split; [exact Ha | now constructor].
Qed.

Lemma before_non_index j k :
  Key.array_index k = None -> Props.key_before j k.
Proof.
  intros Hk. unfold Props.key_before. rewrite Hk.
  now destruct (Key.array_index j).
Qed.

Lemma sorted_insert_index n k v o :
  Key.array_index k = Some n ->
  StronglySorted Props.key_before (Props.keys o) ->
  StronglySorted Props.key_before (Props.keys (Props.insert_index n k v o)).
Proof.
  intros Hk. induction o as [|[k' v'] r IH]; simpl; intros Hs.
  - repeat constructor.
  - inversion Hs as [|? ? Hs' Hall]; subst.
    assert (Hhere : StronglySorted Props.key_before (k :: k' :: Props.keys r)
                    \/ exists m, Key.array_index k' = Some m /\ (m <= n)%N).
    { destruct (Key.array_index k') as [m|] eqn:Hk'.
      - destruct (N.leb_spec m n) as [Hle|Hgt]; [right; eauto|].
        left. constructor; [exact Hs|]. constructor.
        + unfold Props.key_before. rewrite Hk, Hk'. lia.
        + eapply Forall_impl; [|exact Hall]. intros j Hj.
          unfold Props.key_before in *. rewrite Hk. rewrite Hk' in Hj.
          destruct (Key.array_index j); [lia | exact I].
      - left. constructor; [exact Hs|]. constructor.
        + unfold Props.key_before. now rewrite Hk, Hk'.
        + eapply Forall_impl; [|exact Hall]. intros j Hj.
          unfold Props.key_before in *. rewrite Hk. rewrite Hk' in Hj.
          destruct (Key.array_index j); [contradiction | exact I]. }
    destruct (Key.array_index k') as [m|] eqn:Hk'.
    + destruct (N.leb_spec m n) as [Hle|Hgt].
      * simpl. constructor; [now apply IH|].
        destruct (PropsFacts.keys_insert_index n k v r) as (l1 & l2 & H1 & H2).
        rewrite H2. rewrite H1 in Hall. apply Forall_app in Hall.
        destruct Hall as [Hl1 Hl2]. apply Forall_app. split; [exact Hl1|].
        constructor; [|exact Hl2].
        unfold Props.key_before. now rewrite Hk', Hk.
      * destruct Hhere as [H|(m' & Hm' & Hle)]; [exact H|].
        injection Hm' as <-. lia.
    + destruct Hhere as [H|(m' & Hm' & _)]; [exact H | discriminate].
Qed.

Lemma ordered_set k v o : Props.ordered o -> Props.ordered (Props.set k v o).
Proof.
  intros [Hnd Hs]. split; [now apply PropsFacts.NoDup_keys_set|].
  unfold Props.set. destruct (Props.has k o).
  - now rewrite PropsFacts.keys_replace.
  - unfold Props.define. destruct (Key.array_index k) as [n|] eqn:Hk.
    + now apply sorted_insert_index.
    + rewrite PropsFacts.keys_app. simpl. apply sorted_snoc; [exact Hs|].
      apply Forall_forall. intros j _. now apply before_non_index.
Qed.

Lemma sorted_keys_filter (f : string * V -> bool) o :
  StronglySorted Props.key_before (Props.keys o) ->
  StronglySorted Props.key_before (Props.keys (filter f o)).
Proof.
  unfold Props.keys. induction o as [|[k' v'] r IH]; simpl; intros Hs.
  - constructor.
  - inversion Hs as [|? ? Hs' Hall]; subst.
    destruct (f (k', v')); simpl; [|auto].
    constructor; [auto|]. rewrite Forall_forall in *.
    intros j Hj. apply Hall. apply in_map_iff in Hj.
    destruct Hj as (e & He & Hin). apply filter_In in Hin.
    apply in_map_iff. exists e. tauto.
Qed.

Lemma ordered_filter (f : string * V -> bool) o :
  Props.ordered o -> Props.ordered (filter f o).
Proof.
  intros [Hnd Hs]. split.
  - now apply PropsFacts.NoDup_keys_filter.
  - now apply sorted_keys_filter.
Qed.

Lemma ordered_nil : Props.ordered (@nil (string * V)).
Proof. split; constructor. Qed.

Lemma has_set j k v o :
  Props.has j (Props.set k v o) = String.eqb j k || Props.has j o.
Proof.
  unfold Props.has at 1. rewrite PropsFacts.get_set.
  destruct (String.eqb j k); reflexivity.
Qed.

(** The loop [keysToRemove.forEach((key) => delete o[key])]. *)
Lemma fold_delete ks o :
  fold_left (fun o key => Props.delete key o) ks o =
  filter (fun e => negb (removed ks (fst e))) o.
Proof.
  revert o. induction ks as [|k ks IH]; intros o; simpl.
  - symmetry. now apply filter_all.
  - rewrite IH. unfold Props.delete. rewrite filter_filter.
    apply filter_ext. intros [j x]. simpl.
    rewrite (String.eqb_sym j k), negb_orb. reflexivity.
Qed.

End Order.

(** ** The query strings *)

Lemma ordered_parse s : Props.ordered (Qs.parse s).
Proof.
  unfold Qs.parse. generalize (Qs.pairs s).
  assert (H : forall l o,
    Props.ordered o ->
    Props.ordered
      (fold_left (fun o kv => Props.set (fst kv) (QStr (snd kv)) o) l o)).
  { induction l as [|kv l IH]; simpl; intros o Ho; [exact Ho|].
    apply IH. now apply ordered_set. }
  intros l. apply H, ordered_nil.
Qed.

Lemma In_set {V : Type} (e : string * V) k v (o : Props.props V) :
  In e (Props.set k v o) -> e = (k, v) \/ In e o.
Proof.
  unfold Props.set, Props.define. destruct (Props.has k o).
  - induction o as [|[k' v'] r IH]; simpl; [tauto|].
    destruct (String.eqb_spec k k') as [->|Hne]; simpl; intuition (subst; auto).
  - destruct (Key.array_index k) as [n|].
    + induction o as [|[k' v'] r IH]; simpl; [intuition (subst; auto)|].
      destruct (Key.array_index k') as [m|]; [destruct (m <=? n)%N|];
        simpl; intuition (subst; auto).
    + intros H. apply in_app_or in H. simpl in H. intuition (subst; auto).
Qed.

Lemma parsed_are_strings s e :
  In e (Qs.parse s) -> exists t, snd e = QStr t.
Proof.
  unfold Qs.parse. generalize (Qs.pairs s).
  assert (H : forall l (o : Props.props qvalue),
    (forall e, In e o -> exists t, snd e = QStr t) ->
    forall e,
      In e (fold_left (fun o kv => Props.set (fst kv) (QStr (snd kv)) o) l o) ->
      exists t, snd e = QStr t).
  { induction l as [|kv l IH]; simpl; intros o Ho x Hx; [now apply Ho|].
    apply (IH (Props.set (fst kv) (QStr (snd kv)) o)); [|exact Hx].
    intros y Hy. apply In_set in Hy. destruct Hy as [->|Hy]; [now eexists|].
    now apply Ho. }
  intros l. apply H. intros x [].
Qed.

Lemma parsed_not_nullish s e : In e (Qs.parse s) -> nullish (snd e) = false.
Proof.
  intros H. destruct (parsed_are_strings s e H) as [t Ht]. now rewrite Ht.
Qed.

(** The loop that strips the keys holding [null] or [undefined]. *)
Lemma drop_nullish_filter (o : Props.props qvalue) k :
  NoDup (Props.keys o) ->
  drop_nullish o k =
  filter (fun e => negb (String.eqb k (fst e) && nullish (snd e))) o.
Proof.
  intros Hnd. unfold drop_nullish, Props.delete.
  destruct (Props.get k o) as [v|] eqn:Hg.
  - assert (Hv : forall x, In (k, x) o -> x = v).
    { intros x Hx. apply (PropsFacts.get_In _ _ _ Hnd) in Hx. congruence. }
    destruct (nullish v) eqn:Hn.
    + apply filter_ext_in. intros [j x] Hin. simpl.
      destruct (String.eqb_spec k j) as [<-|Hne]; [|reflexivity].
      now rewrite (Hv x Hin), Hn.
    + symmetry. apply filter_all. intros [j x] Hin. simpl.
      destruct (String.eqb_spec k j) as [<-|Hne]; [|reflexivity].
      now rewrite (Hv x Hin), Hn.
  - apply PropsFacts.get_none_iff in Hg.
    apply filter_ext_in. intros [j x] Hin. simpl.
    destruct (String.eqb_spec k j) as [<-|Hne]; [|reflexivity].
    exfalso. apply Hg. change k with (fst (k, x)). now apply in_map.
Qed.

Lemma fold_drop_nullish ks (o : Props.props qvalue) :
  NoDup (Props.keys o) ->
  fold_left drop_nullish ks o =
  filter (fun e => negb (removed ks (fst e) && nullish (snd e))) o.
Proof.
  revert o. induction ks as [|k ks IH]; intros o Hnd; simpl.
  - symmetry. now apply filter_all.
  - rewrite (drop_nullish_filter o k Hnd).
    rewrite IH by now apply PropsFacts.NoDup_keys_filter.
    rewrite filter_filter. apply filter_ext. intros [j x]. simpl.
    rewrite (String.eqb_sym j k).
    destruct (String.eqb k j), (removed ks j), (nullish x); reflexivity.
Qed.

Lemma strip_nullish (o : Props.props qvalue) :
  NoDup (Props.keys o) ->
  fold_left drop_nullish (Props.keys o) o =
  filter (fun e => negb (nullish (snd e))) o.
Proof.
  intros Hnd. rewrite (fold_drop_nullish _ _ Hnd).
  apply filter_ext_in. intros [j x] Hin. simpl.
  assert (Hj : removed (Props.keys o) j = true).
  { apply existsb_exists. exists j. split; [|apply String.eqb_refl].
    change j with (fst (j, x)). now apply in_map. }
  now rewrite Hj.
Qed.

(** The keys [stringify] writes are the keys whose value it does not
    skip, in the object's order. *)
Lemma emitted_keys skipNulls (o : Props.props qvalue) :
  map fst (Qs.emitted skipNulls o) =
  Props.keys
    (filter (fun e => match snd e with
                      | QUndefined => false
                      | QNull => negb skipNulls
                      | _ => true
                      end) o).
Proof.
  unfold Qs.emitted, Props.keys.
  induction o as [|[k x] r IH]; simpl; [reflexivity|].
  rewrite map_app, IH. unfold Qs.emit. simpl.
  destruct x; try reflexivity. destruct skipNulls; reflexivity.
Qed.


Lemma emitted_keys_all (o : Props.props qvalue) :
  (forall e, In e o -> nullish (snd e) = false) ->
  map fst (Qs.emitted false o) = Props.keys o.
Proof.
  intros H. rewrite emitted_keys. f_equal. apply filter_all.
  intros [k x] Hin. specialize (H _ Hin). now destruct x.
Qed.



Lemma In_emitted skipNulls k t (o : Props.props qvalue) :
  In (k, t) (Qs.emitted skipNulls o) <->
  exists x, In (k, x) o /\ In (k, t) (Qs.emit skipNulls (k, x)).
Proof.
  unfold Qs.emitted. rewrite in_flat_map. split.
  - intros ([j x] & Hin & Hem).
    assert (j = k).
    { unfold Qs.emit in Hem. simpl in Hem.
      destruct x; [|destruct skipNulls| |]; simpl in Hem;
        intuition congruence. }
    subst j. eauto.
  - intros (x & Hin & Hem). eauto.
Qed.

Lemma In_emit_skipNulls k t x :
  In (k, t) (Qs.emit true (k, x)) <-> rendered x = Some t.
Proof.
  unfold Qs.emit. destruct x; simpl; intuition congruence.
Qed.

Lemma get_filter_keys {V : Type} (f : string -> bool) k (o : Props.props V) :
  Props.get k (filter (fun e => f (fst e)) o) =
  if f k then Props.get k o else None.
Proof.
  induction o as [|[j x] r IH]; simpl.
  - now destruct (f k).
  - destruct (f j) eqn:Hj; simpl.
    + destruct (String.eqb_spec k j) as [->|Hne]; [now rewrite Hj | exact IH].
    + rewrite IH. destruct (String.eqb_spec k j) as [->|Hne]; [now rewrite Hj|].
      reflexivity.
Qed.


(** ** Flat query strings read back as written *)

Lemma existsb_eqb_In j (l : list string) :
  existsb (String.eqb j) l = true <-> In j l.
Proof.
  rewrite existsb_exists. split.
  - intros (x & Hin & Heq). apply String.eqb_eq in Heq. now subst.
  - intros Hin. exists j. split; [exact Hin | apply String.eqb_refl].
Qed.

Lemma emitted_without_nulls (o : Props.props qvalue) :
  (forall e, In e o -> nullish (snd e) = false) ->
  Qs.emitted true o = Qs.emitted false o.
Proof.
  unfold Qs.emitted. induction o as [|[j x] r IH]; simpl; intros H; [reflexivity|].
  rewrite IH by (intros e He; apply H; now right).
  f_equal. specialize (H (j, x) (or_introl eq_refl)). now destruct x.
Qed.

Lemma lacks_plain c s :
  unreserved c = false -> plain_text s = true -> lacks c s = true.
Proof.
  intros Hc. induction s as [|a r IH]; simpl; [reflexivity|].
  intros H. apply andb_true_iff in H. destruct H as [Ha Hr].
  rewrite (IH Hr), andb_true_r.
  destruct (Ascii.eqb_spec a c) as [->|]; [congruence | reflexivity].
Qed.

Lemma lacks_app c a b : lacks c (a ++ b) = lacks c a && lacks c b.
Proof.
  induction a as [|x r IH]; simpl; [reflexivity|].
  now rewrite IH, andb_assoc.
Qed.

Lemma split_lacks sep p : lacks sep p = true -> Qs.split sep p = [p].
Proof.
  induction p as [|a r IH]; simpl; [reflexivity|].
  intros H. apply andb_true_iff in H. destruct H as [Ha Hr].
  apply negb_true_iff in Ha. now rewrite Ha, (IH Hr).
Qed.

Lemma split_app sep p rest :
  lacks sep p = true ->
  Qs.split sep (p ++ String sep rest) = p :: Qs.split sep rest.
Proof.
  induction p as [|a r IH]; simpl.
  - intros _. now rewrite Ascii.eqb_refl.
  - intros H. apply andb_true_iff in H. destruct H as [Ha Hr].
    apply negb_true_iff in Ha. now rewrite Ha, (IH Hr).
Qed.

Lemma split_concat sep (ps : list string) :
  ps <> [] ->
  (forall p, In p ps -> lacks sep p = true) ->
  Qs.split sep (String.concat (String sep EmptyString) ps) = ps.
Proof.
  induction ps as [|p [|q r] IH]; intros Hne Hall; [congruence | |].
  - simpl. apply split_lacks, Hall. now left.
  - change (String.concat (String sep EmptyString) (p :: q :: r))
      with (p ++ String sep (String.concat (String sep EmptyString) (q :: r))).
    rewrite split_app by (apply Hall; now left).
    f_equal. apply IH; [discriminate|]. intros x Hx. apply Hall. now right.
Qed.

Lemma cut_app k v :
  lacks "="%char k = true -> Qs.cut (k ++ String "="%char v) = (k, v).
Proof.
  induction k as [|a r IH]; simpl; [reflexivity|].
  intros H. apply andb_true_iff in H. destruct H as [Ha Hr].
  apply negb_true_iff in Ha. now rewrite Ha, (IH Hr).
Qed.

Lemma splittable_piece k v :
  splittable (k, v) = true ->
  lacks "&"%char (k ++ "=" ++ v) = true /\
  Qs.cut (k ++ "=" ++ v) = (k, v) /\
  String.eqb k "" = false.
Proof.
  unfold splittable, flat_key. simpl. intros H.
  apply andb_true_iff in H. destruct H as [H Hv].
  apply andb_true_iff in H. destruct H as [Hne Hk].
  apply negb_true_iff in Hne.
  split; [|split; [|exact Hne]].
  - rewrite lacks_app. rewrite (lacks_plain "&"%char k eq_refl Hk). simpl.
    now apply lacks_plain.
  - apply (cut_app k v). now apply lacks_plain.
Qed.

(** Reading a flat query string gives back the parameters it lists. *)
Lemma pairs_query_of l :
  forallb splittable l = true -> Qs.pairs (query_of l) = l.
Proof.
  intros Hall. destruct l as [|kv0 l0]; [reflexivity|].
  remember (kv0 :: l0) as l eqn:El.
  assert (Hne : map (fun kv : string * string => fst kv ++ "=" ++ snd kv) l <> [])
    by (subst l; discriminate).
  rewrite forallb_forall in Hall.
  unfold Qs.pairs, query_of.
  change "&" with (String "&"%char EmptyString).
  rewrite split_concat; [|exact Hne|].
  - clear Hne El. induction l as [|[k v] r IH]; simpl; [reflexivity|].
    destruct (splittable_piece k v (Hall (k, v) (or_introl eq_refl)))
      as (_ & Hcut & Hk).
    change (k ++ String "="%char v) with (k ++ "=" ++ v).
    rewrite Hcut. simpl. rewrite Hk. simpl. f_equal.
    apply IH. intros x Hx. apply Hall. now right.
  - intros p Hp. apply in_map_iff in Hp. destruct Hp as ([k v] & <- & Hin).
    apply (splittable_piece k v (Hall (k, v) Hin)).
Qed.

Lemma flat_splittable l : forallb flat_pair l = true -> forallb splittable l = true.
Proof.
  rewrite !forallb_forall. intros H x Hx. specialize (H x Hx).
  unfold flat_pair in H. unfold splittable.
  apply andb_true_iff in H. destruct H as [H Hv].
  apply andb_true_iff in H. destruct H as [Hk _]. now rewrite Hk, Hv.
Qed.

Lemma parse_query_of l : flat_query l -> Qs.parse (query_of l) = object_of l.
Proof.
  intros (_ & Hflat & _). unfold Qs.parse, object_of.
  now rewrite pairs_query_of by now apply flat_splittable.
Qed.

Lemma written_emitted (o : Props.props qvalue) : written o = Qs.emitted true o.
Proof.
  unfold written, Qs.emitted. induction o as [|[k x] r IH]; simpl; [reflexivity|].
  rewrite IH. f_equal. now destruct x.
Qed.


Lemma stringify_written_all (o : Props.props qvalue) :
  (forall e, In e o -> nullish (snd e) = false) ->
  Qs.stringify false o = query_of (written o).
Proof.
  intros H. unfold Qs.stringify, query_of.
  now rewrite written_emitted, (emitted_without_nulls o H).
Qed.

Lemma object_of_strings l e : In e (object_of l) -> exists t, snd e = QStr t.
Proof.
  unfold object_of.
  assert (H : forall l (o : Props.props qvalue),
    (forall e, In e o -> exists t, snd e = QStr t) ->
    forall e,
      In e (fold_left (fun o kv => Props.set (fst kv) (QStr (snd kv)) o) l o) ->
      exists t, snd e = QStr t).
  { clear. induction l as [|kv l IH]; simpl; intros o Ho x Hx; [now apply Ho|].
    apply (IH (Props.set (fst kv) (QStr (snd kv)) o)); [|exact Hx].
    intros y Hy. apply In_set in Hy. destruct Hy as [->|Hy]; [now eexists|].
    now apply Ho. }
  apply H. intros x [].
Qed.

Lemma ordered_object_of l : Props.ordered (object_of l).
Proof.
  unfold object_of.
  assert (H : forall l o,
    Props.ordered o ->
    Props.ordered
      (fold_left (fun o kv => Props.set (fst kv) (QStr (snd kv)) o) l o)).
  { clear. induction l as [|kv l IH]; simpl; intros o Ho; [exact Ho|].
    apply IH. now apply ordered_set. }
  apply H, ordered_nil.
Qed.

Lemma get_object_of k t l :
  NoDup (map fst l) ->
  (Props.get k (object_of l) = Some (QStr t) <-> In (k, t) l).
Proof.
  unfold object_of. intros Hnd.
  assert (H : forall l (o : Props.props qvalue),
    NoDup (map fst l) ->
    Props.get k (fold_left (fun o kv => Props.set (fst kv) (QStr (snd kv)) o) l o)
    = match Props.get k l with
      | Some v => Some (QStr v)
      | None => Props.get k o
      end).
  { clear. induction l as [|[j v] l IH]; simpl; intros o Hnd; [reflexivity|].
    inversion Hnd as [|? ? Hni Hr]; subst. rewrite (IH _ Hr).
    destruct (String.eqb_spec k j) as [->|Hne].
    - apply PropsFacts.get_none_iff in Hni. rewrite Hni.
      apply PropsFacts.get_set_same.
    - destruct (Props.get k l); [reflexivity|].
      now apply PropsFacts.get_set_other. }
  rewrite (H l [] Hnd). simpl. split.
  - destruct (Props.get k l) as [v|] eqn:Hg; [|discriminate].
    intros [= ->]. now apply PropsFacts.In_get.
  - intros Hin. now rewrite (PropsFacts.get_In k t l Hnd Hin).
Qed.





Lemma flat_pair_parts k t l :
  forallb flat_pair l = true -> In (k, t) l -> splittable (k, t) = true.
Proof.
  intros Hall Hin. apply flat_splittable in Hall.
  rewrite forallb_forall in Hall. now apply Hall.
Qed.




Lemma removeKeysFromQuery_params_filter s ks :
  removeKeysFromQuery_params s ks
  = filter (fun e => negb (removed ks (fst e))) (Qs.parse s).
Proof.
  unfold removeKeysFromQuery_params. rewrite fold_delete.
  rewrite strip_nullish by apply PropsFacts.NoDup_keys_filter, ordered_parse.
  apply filter_all. intros e He. apply filter_In in He.
  now rewrite (parsed_not_nullish s e).
Qed.

Lemma written_strings (l : list (string * string)) :
  written (map (fun kv => (fst kv, QStr (snd kv))) l) = l.
Proof.
  unfold written. induction l as [|[k v] r IH]; simpl; [reflexivity|].
  now rewrite IH.
Qed.


Lemma kept_strings l ks e :
  In e (filter (fun e => negb (removed ks (fst e))) (object_of l)) ->
  exists t, snd e = QStr t.
Proof. intros He. apply filter_In in He. now apply (object_of_strings l). Qed.

(** What [removeKeysFromQuery] returns on a flat query string. *)
Lemma removeKeysFromQuery_flat pathname l ks :
  flat_query l ->
  removeKeysFromQuery pathname (query_of l) ks
  = pathname ++ "?"
      ++ query_of (written (filter (fun e => negb (removed ks (fst e)))
                              (object_of l))).
Proof.
  intros Hflat. unfold removeKeysFromQuery.
  rewrite removeKeysFromQuery_params_filter, (parse_query_of l Hflat).
  rewrite stringify_written_all; [reflexivity|].
  intros e He. destruct (kept_strings l ks e He) as [t Ht]. now rewrite Ht.
Qed.

Lemma In_written_kept l ks k t :
  NoDup (map fst l) ->
  (In (k, t) (written (filter (fun e => negb (removed ks (fst e)))
                         (object_of l)))
   <-> In (k, t) l /\ removed ks k = false).
Proof.
  intros Hndl. rewrite <- (get_object_of k t l Hndl).
  rewrite written_emitted, In_emitted. split.
  - intros (x & Hx & Hem).
    destruct (kept_strings l ks _ Hx) as [t' Ht']. simpl in Ht'. subst x.
    apply In_emit_skipNulls in Hem. simpl in Hem. injection Hem as ->.
    apply filter_In in Hx. destruct Hx as [Hx Hr]. simpl in Hr.
    apply negb_true_iff in Hr. split; [|exact Hr].
    apply PropsFacts.get_In; [apply ordered_object_of | exact Hx].
  - intros [Hg Hr]. exists (QStr t). split; [|now apply In_emit_skipNulls].
    apply filter_In. split; [now apply PropsFacts.In_get|].
    simpl. now rewrite Hr.
Qed.

Lemma written_kept_reads_back l ks :
  flat_query l ->
  let rest := written (filter (fun e => negb (removed ks (fst e)))
                         (object_of l)) in
  Qs.pairs (query_of rest) = rest.
Proof.
  intros (Hndl & Hpairs & _) rest. apply pairs_query_of.
  apply forallb_forall. intros [k t] Hkt.
  apply (In_written_kept l ks k t Hndl) in Hkt.
  now apply (flat_pair_parts k t l).
Qed.




(** ** [debounce] *)

Section DebounceFacts.

Context {A : Type}.
Variable delay : N.
Implicit Types (c : Debounce.closure A) (a : A).

Lemma armed_one_pending c a : armed delay c a -> one_pending c.
Proof.
  intros (t & Ht & _ & _ & Hid). unfold one_pending. now rewrite Ht.
Qed.

(** A call cancels what was pending and schedules its own arguments. *)
Lemma call_arms c a :
  one_pending c ->
  armed delay (Debounce.call delay a c) a /\
  Debounce.timers (Debounce.world (Debounce.call delay a c))
  = [ {| Debounce.handle := Debounce.fresh (Debounce.world c);
         Debounce.due := (Debounce.now (Debounce.world c) + delay)%N;
         Debounce.args := a |} ] /\
  Debounce.invoked (Debounce.world (Debounce.call delay a c))
  = Debounce.invoked (Debounce.world c) /\
  Debounce.now (Debounce.world (Debounce.call delay a c))
  = Debounce.now (Debounce.world c).
Proof.
  unfold one_pending. destruct c as [id [t0 f ts inv]]. simpl.
  intros Hone.
  assert (Hts : Debounce.timers
                  (Debounce.world (Debounce.call delay a
                     {| Debounce.timeoutId := id;
                        Debounce.world :=
                          {| Debounce.now := t0; Debounce.fresh := f;
                             Debounce.timers := ts; Debounce.invoked := inv |} |}))
                = [ {| Debounce.handle := f; Debounce.due := (t0 + delay)%N;
                       Debounce.args := a |} ]).
  { destruct ts as [|t [|u r]]; [| |contradiction].
    - destruct id; reflexivity.
    - subst id. unfold Debounce.call. simpl. now rewrite Pos.eqb_refl. }
  split; [|split; [exact Hts|split]].
  - eexists. split; [exact Hts|]. simpl.
    repeat split; destruct id; reflexivity.
  - destruct id; reflexivity.
  - destruct id; reflexivity.
Qed.

(** Before the delay has run out nothing happens. *)
Lemma wait_early c a dt :
  armed delay c a -> (dt < delay)%N ->
  exists t,
    Debounce.timers (Debounce.world (Debounce.step delay c (Debounce.Wait dt))) = [t] /\
    Debounce.timeoutId c = Some (Debounce.handle t) /\
    Debounce.invoked (Debounce.world (Debounce.step delay c (Debounce.Wait dt)))
    = Debounce.invoked (Debounce.world c).
Proof.
  intros (t & Ht & _ & Hdue & Hid) Hdt. exists t.
  unfold Debounce.step, Debounce.advance. simpl. rewrite Ht. simpl.
  assert (Hle : (Debounce.due t <=? Debounce.now (Debounce.world c) + dt)%N = false)
    by (apply N.leb_gt; lia).
  rewrite Hle. simpl. rewrite List.app_nil_r. auto.
Qed.

(** Once the delay has run out the pending call is made. *)
Lemma wait_fires c a dt :
  armed delay c a -> (delay <= dt)%N ->
  Debounce.timers (Debounce.world (Debounce.step delay c (Debounce.Wait dt))) = [] /\
  Debounce.invoked (Debounce.world (Debounce.step delay c (Debounce.Wait dt)))
  = (Debounce.invoked (Debounce.world c) ++ [a])%list.
Proof.
  intros (t & Ht & Ha & Hdue & Hid) Hdt.
  unfold Debounce.step, Debounce.advance. simpl. rewrite Ht. simpl.
  assert (Hle : (Debounce.due t <=? Debounce.now (Debounce.world c) + dt)%N = true)
    by (apply N.leb_le; lia).
  rewrite Hle. simpl. now rewrite Ha.
Qed.

Lemma step_one_pending c e : one_pending c -> one_pending (Debounce.step delay c e).
Proof.
  intros Hone. destruct e as [a|dt].
  - apply (armed_one_pending _ a). now apply call_arms.
  - unfold one_pending in *. simpl.
    destruct (Debounce.timers (Debounce.world c)) as [|t [|u r]];
      [exact I | | contradiction].
    simpl. now destruct (Debounce.due t <=? _)%N.
Qed.

Lemma run_one_pending es c : one_pending c -> one_pending (Debounce.run delay es c).
Proof.
  revert c. induction es as [|e es IH]; intros c Hone; simpl; [exact Hone|].
  apply IH. now apply step_one_pending.
Qed.

Lemma run_cons e es c :
  Debounce.run delay (e :: es) c = Debounce.run delay es (Debounce.step delay c e).
Proof. reflexivity. Qed.

Lemma run_app es es' c :
  Debounce.run delay (es ++ es')%list c
  = Debounce.run delay es' (Debounce.run delay es c).
Proof. apply fold_left_app. Qed.

Lemma last_cons (x d : A) (l : list A) : last (x :: l) d = last l x.
Proof.
  revert x d. induction l as [|y r IH]; intros x d; [reflexivity|].
  change (last (x :: y :: r) d) with (last (y :: r) d).
  now rewrite (IH y d), (IH y x).
Qed.

Lemma gaps_keep_armed gaps :
  Forall (fun g : N * A => (fst g < delay)%N) gaps ->
  forall c a,
    armed delay c a ->
    let c' := Debounce.run delay
                (flat_map (fun g => [Debounce.Wait (fst g); Debounce.Call (snd g)]) gaps)
                c in
    armed delay c' (last (map snd gaps) a) /\
    Debounce.invoked (Debounce.world c') = Debounce.invoked (Debounce.world c).
Proof.
  induction 1 as [|[d a'] gaps Hd Hall IH]; intros c a Harm.
  - simpl. auto.
  - simpl in Hd.
    change (map snd ((d, a') :: gaps)) with (a' :: map snd gaps).
    rewrite last_cons. cbn [flat_map fst snd List.app]. rewrite !run_cons.
    destruct (wait_early c a d Harm Hd) as (t & Ht & Hid & Hinv).
    set (c1 := Debounce.step delay c (Debounce.Wait d)) in *.
    assert (Hone : one_pending c1).
    { unfold one_pending. rewrite Ht. exact Hid. }
    destruct (call_arms c1 a' Hone) as (Harm' & _ & Hinv' & _).
    destruct (IH _ _ Harm') as [Hlast Hinv''].
    change (Debounce.step delay c1 (Debounce.Call a')) with (Debounce.call delay a' c1).
    split; [exact Hlast|]. now rewrite Hinv'', Hinv', Hinv.
Qed.

(** A burst of calls, each following the one before by less than the
    delay, then quiet for the delay: one call of [func], with the
    arguments of the last call of the burst. *)
Lemma burst_fires_once a0 gaps rest c :
  one_pending c ->
  Forall (fun g : N * A => (fst g < delay)%N) gaps ->
  (delay <= rest)%N ->
  Debounce.invoked
    (Debounce.world
       (Debounce.run delay (burst a0 gaps ++ [Debounce.Wait rest])%list c))
  = (Debounce.invoked (Debounce.world c) ++ [last (map snd gaps) a0])%list.
Proof.
  intros Hone Hgaps Hrest. unfold burst.
  rewrite <- List.app_comm_cons, run_cons, run_app, run_cons.
  change (Debounce.step delay c (Debounce.Call a0)) with (Debounce.call delay a0 c).
  destruct (call_arms c a0 Hone) as (Harm & _ & Hinv & _).
  destruct (gaps_keep_armed gaps Hgaps _ _ Harm) as [Hlast Hinv'].
  destruct (wait_fires _ _ rest Hlast Hrest) as [_ Hfire].
  cbn [Debounce.run fold_left]. rewrite Hfire, Hinv', Hinv. reflexivity.
Qed.

End DebounceFacts.

Lemma start_one_pending {A : Type} t0 id0 : one_pending (Debounce.start A t0 id0).
Proof. exact I. Qed.

(** C5.  A debounced function has at most one invocation pending at any
    time; each call cancels the pending one and schedules its own; and five
    calls within a window shorter than the delay, followed by the delay
    without a call, make [func] run exactly once, with the arguments of the
    fifth call. *)
Theorem debounce_one_invocation_per_burst :
  forall (A : Type) (delay : N),
    (forall es t0 id0,
        (List.length
           (Debounce.timers
              (Debounce.world (Debounce.run delay es (Debounce.start A t0 id0))))
         <= 1)%nat) /\
    (forall es t0 id0 a,
        let c := Debounce.run delay es (Debounce.start A t0 id0) in
        Debounce.timers (Debounce.world (Debounce.call delay a c))
        = [ {| Debounce.handle := Debounce.fresh (Debounce.world c);
               Debounce.due := (Debounce.now (Debounce.world c) + delay)%N;
               Debounce.args := a |} ]) /\
    (forall t0 id0 (a1 a2 a3 a4 a5 : A) (d1 d2 d3 d4 rest : N),
        (d1 + d2 + d3 + d4 < delay)%N ->
        (delay <= rest)%N ->
        Debounce.invoked
          (Debounce.world
             (Debounce.run delay
                [Debounce.Call a1; Debounce.Wait d1;
                 Debounce.Call a2; Debounce.Wait d2;
                 Debounce.Call a3; Debounce.Wait d3;
                 Debounce.Call a4; Debounce.Wait d4;
                 Debounce.Call a5; Debounce.Wait rest]
                (Debounce.start A t0 id0)))
        = [a5]).
Proof.
  intros A delay. split; [|split].
  - intros es t0 id0.
    pose proof (run_one_pending delay es _ (start_one_pending t0 id0)) as Hone.
    unfold one_pending in Hone.
    destruct (Debounce.timers _) as [|t [|u r]]; simpl; [lia | lia | contradiction].
  - intros es t0 id0 a c.
    apply (call_arms delay c a).
    apply run_one_pending, start_one_pending.
  - intros t0 id0 a1 a2 a3 a4 a5 d1 d2 d3 d4 rest Hwindow Hrest.
    apply (burst_fires_once delay a1 [(d1, a2); (d2, a3); (d3, a4); (d4, a5)]
             rest (Debounce.start A t0 id0)).
    + apply start_one_pending.
    + repeat constructor; simpl; lia.
    + exact Hrest.
Qed.

Lemma debounce_one_invocation_per_burst_witness :
  Debounce.invoked
    (Debounce.world
       (Debounce.run 300
          [Debounce.Call "m"; Debounce.Wait 40;
           Debounce.Call "ma"; Debounce.Wait 60;
           Debounce.Call "mag"; Debounce.Wait 70;
           Debounce.Call "magn"; Debounce.Wait 50;
           Debounce.Call "magni"; Debounce.Wait 300]
          (Debounce.start string 0 1)))
  = ["magni"].
Proof.
  apply (proj2 (proj2 (debounce_one_invocation_per_burst string 300))).
  - vm_compute. reflexivity.
  - vm_compute. discriminate.
Defined.

(** * Further properties of the module *)

(** ** [getImageSize] *)

Lemma or_else_truthy a n : n <> 0%Z -> truthy (or_else a (VNum n)) = true.
Proof.
  intros Hn. unfold or_else. destruct (truthy a) eqn:Ha; [exact Ha|].
  simpl. now destruct (Z.eqb_spec n 0).
Qed.

Lemma or_else_falsy a b : truthy a = false -> or_else a b = b.
Proof. intros H. unfold or_else. now rewrite H. Qed.

Lemma or_else_kept a b : truthy a = true -> or_else a b = a.
Proof. intros H. unfold or_else. now rewrite H. Qed.

Lemma read_present o key : absent o = false -> read o key = Return (member o key).
Proof. now destruct o. Qed.

Lemma optional_member_absent o key : absent o = true -> optional_member o key = VUndefined.
Proof. now destruct o. Qed.

(** Whatever the table, the transformation type and the image, a size
    that [getImageSize] returns is never [0], empty, [false], [null] or
    [undefined]: a missing or falsy dimension is replaced by 1000. *)
Theorem getImageSize_never_falsy :
  forall (table : Props.props value) (type : string) (image : value)
         (dim : dimension) (size : value),
    getImageSize table type image dim = Return size ->
    truthy size = true.
Proof.
  intros table type image dim size. unfold getImageSize.
  destruct (String.eqb type "fill").
  - destruct (read image "aspectRatio") as [ratio|]; [|discriminate].
    destruct (to_string ratio); [|discriminate].
    intros [= <-]. now apply or_else_truthy.
  - intros [= <-]. now apply or_else_truthy.
Qed.

Lemma getImageSize_never_falsy_witness :
  truthy (VNum 1000) = true.
Proof.
  apply (getImageSize_never_falsy [] "restore" (VObj [("width", VNum 0)]) Width).
  reflexivity.
Defined.

(** For a transformation other than ["fill"] the call never throws and
    never looks at the aspect-ratio table: it returns the image's own
    dimension when that is truthy, and 1000 when the image is [null] or
    [undefined], lacks the dimension, or holds a falsy one. *)
Theorem getImageSize_other_types_use_image :
  forall (table : Props.props value) (type : string) (image : value)
         (dim : dimension),
    type <> "fill" ->
    exists size,
      getImageSize table type image dim = Return size /\
      getImageSize [] type image dim = Return size /\
      (absent image = true -> size = VNum 1000) /\
      (forall ps,
          image = VObj ps ->
          size = match Props.get (dimension_key dim) ps with
                 | Some x => if truthy x then x else VNum 1000
                 | None => VNum 1000
                 end).
Proof.
  intros table type image dim Htype. apply String.eqb_neq in Htype.
  unfold getImageSize. rewrite Htype.
  eexists. split; [reflexivity|]. split; [reflexivity|]. split.
  - intros Hab. now rewrite (optional_member_absent _ _ Hab).
  - intros ps ->. simpl. unfold or_else.
    destruct (Props.get (dimension_key dim) ps); reflexivity.
Qed.

Lemma getImageSize_other_types_use_image_witness :
  exists size,
    getImageSize [("1:1", VObj [("width", VNum 1000); ("height", VNum 1000)])]
      "restore" (VObj [("width", VNum 640); ("height", VNum 0)]) Height
    = Return size /\ size = VNum 1000.
Proof.
  destruct (getImageSize_other_types_use_image
              [("1:1", VObj [("width", VNum 1000); ("height", VNum 1000)])]
              "restore" (VObj [("width", VNum 640); ("height", VNum 0)]) Height)
    as (size & Heq & _ & _ & Hobj); [discriminate|].
  exists size. split; [exact Heq|].
  apply (Hobj [("width", VNum 640); ("height", VNum 0)]). reflexivity.
Defined.

Lemma to_string_scalar v :
  scalar v = true -> exists key, to_string v = Return key.
Proof.
  destruct v as [| |[]| | | |]; try discriminate; intros _; eexists; reflexivity.
Qed.

(** For ["fill"] the image is read without a guard: the call throws a
    [TypeError] when the image is [null] or [undefined].  For any other
    image it returns when the aspect ratio it reads is a primitive (a
    string, a number, a boolean, [null] or nothing at all), and throws a
    [TypeError] when that is a mapping with a property [toString] of its
    own, which cannot be turned into a key. *)
Theorem getImageSize_fill_throws_without_image :
  forall (table : Props.props value) (image : value) (dim : dimension),
    (absent image = true ->
     exists message,
       getImageSize table "fill" image dim = Throw (AnError "TypeError" message)) /\
    (absent image = false ->
     scalar (member image "aspectRatio") = true ->
     exists size, getImageSize table "fill" image dim = Return size) /\
    (absent image = false ->
     forall ps,
       member image "aspectRatio" = VObj ps ->
       Props.has "toString" ps = true ->
       exists message,
         getImageSize table "fill" image dim = Throw (AnError "TypeError" message)).
Proof.
  intros table image dim. unfold getImageSize. simpl String.eqb.
  split; [|split].
  - destruct image; try discriminate; intros _; eexists; reflexivity.
  - intros Hp Hs. rewrite (read_present _ _ Hp).
    destruct (to_string_scalar _ Hs) as [key ->]. eexists. reflexivity.
  - intros Hp ps Hps Hown. rewrite (read_present _ _ Hp), Hps.
    simpl. rewrite Hown. eexists. reflexivity.
Qed.

Lemma getImageSize_fill_throws_without_image_witness :
  (exists message,
      getImageSize [] "fill" VNull Width = Throw (AnError "TypeError" message)) /\
  (exists size,
      getImageSize [] "fill" (VObj [("aspectRatio", VStr "1:1")]) Width
      = Return size) /\
  (exists message,
      getImageSize [] "fill"
        (VObj [("aspectRatio", VObj [("toString", VNum 1)])]) Width
      = Throw (AnError "TypeError" message)).
Proof.
  split; [|split].
  - apply (proj1 (getImageSize_fill_throws_without_image [] VNull Width)).
    reflexivity.
  - apply (proj1 (proj2 (getImageSize_fill_throws_without_image []
                           (VObj [("aspectRatio", VStr "1:1")]) Width)));
      reflexivity.
  - apply (proj2 (proj2 (getImageSize_fill_throws_without_image []
                           (VObj [("aspectRatio", VObj [("toString", VNum 1)])])
                           Width))
             eq_refl [("toString", VNum 1)]); reflexivity.
Defined.

Lemma member_string_present image key t :
  member image key = VStr t -> absent image = false.
Proof. destruct image; simpl; try discriminate; reflexivity. Qed.

(** For ["fill"] and an image whose aspect ratio is a string, the size
    comes from the table entry of that aspect ratio and from nothing else:
    images with the same aspect ratio get the same size whatever width and
    height they carry, an aspect ratio the table does not list gives 1000,
    and a listed one gives the entry's dimension when that is truthy. *)
Theorem getImageSize_fill_reads_table :
  forall (table : Props.props value) (image : value) (dim : dimension)
         (ratio : string),
    member image "aspectRatio" = VStr ratio ->
    (forall image',
        member image' "aspectRatio" = VStr ratio ->
        getImageSize table "fill" image' dim = getImageSize table "fill" image dim) /\
    (Props.get ratio table = None ->
     getImageSize table "fill" image dim = Return (VNum 1000)) /\
    (forall entry size,
        Props.get ratio table = Some (VObj entry) ->
        Props.get (dimension_key dim) entry = Some size ->
        truthy size = true ->
        getImageSize table "fill" image dim = Return size).
Proof.
  intros table image dim ratio Hratio.
  assert (Hfill : forall img,
    member img "aspectRatio" = VStr ratio ->
    getImageSize table "fill" img dim
    = Return (or_else (optional_member (member (VObj table) ratio)
                         (dimension_key dim)) (VNum 1000))).
  { intros img Himg. unfold getImageSize. simpl String.eqb.
    rewrite (read_present _ _ (member_string_present _ _ _ Himg)), Himg.
    reflexivity. }
  split; [|split].
  - intros image' Hsame. now rewrite !Hfill.
  - intros Hnone. rewrite (Hfill image Hratio). simpl member. now rewrite Hnone.
  - intros entry size Hentry Hsize Htruthy.
    rewrite (Hfill image Hratio). simpl member. rewrite Hentry.
    simpl. rewrite Hsize. now rewrite or_else_kept.
Qed.

Lemma getImageSize_fill_reads_table_witness :
  getImageSize
    [("1:1", VObj [("width", VNum 1000); ("height", VNum 1000)]);
     ("3:4", VObj [("width", VNum 1000); ("height", VNum 1334)])]
    "fill" (VObj [("aspectRatio", VStr "3:4"); ("height", VNum 20)]) Height
  = Return (VNum 1334) /\
  getImageSize
    [("1:1", VObj [("width", VNum 1000); ("height", VNum 1000)])]
    "fill" (VObj [("aspectRatio", VStr "16:10"); ("height", VNum 20)]) Height
  = Return (VNum 1000).
Proof.
  split.
  - apply (proj2 (proj2 (getImageSize_fill_reads_table
             [("1:1", VObj [("width", VNum 1000); ("height", VNum 1000)]);
              ("3:4", VObj [("width", VNum 1000); ("height", VNum 1334)])]
             (VObj [("aspectRatio", VStr "3:4"); ("height", VNum 20)]) Height
             "3:4" eq_refl))
           [("width", VNum 1000); ("height", VNum 1334)] (VNum 1334));
      reflexivity.
  - apply (proj1 (proj2 (getImageSize_fill_reads_table
             [("1:1", VObj [("width", VNum 1000); ("height", VNum 1000)])]
             (VObj [("aspectRatio", VStr "16:10"); ("height", VNum 20)]) Height
             "16:10" eq_refl))).
    reflexivity.
Defined.

(** ** [deepMergeObjects]: keys, depth, shape *)

Lemma has_fold_merge obj2 j ps out :
  Props.has j (fold_left (merge_entry obj2) ps out) =
  existsb (String.eqb j) (Props.keys ps) || Props.has j out.
Proof.
  revert out. induction ps as [|[k v] r IH]; intros out; simpl; [reflexivity|].
  rewrite IH. unfold merge_entry. simpl. rewrite has_set.
  destruct (String.eqb j k), (existsb (String.eqb j) (Props.keys r)); reflexivity.
Qed.

(** The merge of two mappings holds the keys of both and no other key
    ([base] with ordinary keys). *)
Theorem deepMergeObjects_keys :
  forall base overlay : Props.props value,
    ordinary (VObj base) ->
    exists output,
      deepMergeObjects (VObj base) (VObj overlay) = Return (VObj output) /\
      forall k,
        In k (Props.keys output) <->
        In k (Props.keys base) \/ In k (Props.keys overlay).
Proof.
  intros base overlay Hord.
  exists (fold_left (merge_entry (VObj overlay)) base overlay).
  split.
  - rewrite deepMergeObjects_returns by exact Hord.
    now rewrite deep_merge_object.
  - intros k. rewrite <- !PropsFacts.has_true_iff, has_fold_merge.
    rewrite orb_true_iff, existsb_eqb_In, <- PropsFacts.has_true_iff.
    reflexivity.
Qed.

Lemma deepMergeObjects_keys_witness :
  exists output,
    deepMergeObjects (VObj [("a", VNum 1)]) (VObj [("b", VNum 2)])
    = Return (VObj output) /\
    In "b" (Props.keys output).
Proof.
  destruct (deepMergeObjects_keys [("a", VNum 1)] [("b", VNum 2)])
    as (output & Heq & Hkeys); [simpl; auto|].
  exists output. split; [exact Heq|].
  apply (proj2 (Hkeys "b")). right. left. reflexivity.
Defined.

Lemma member_at_key obj2 k ps x :
  absent obj2 = false ->
  NoDup (Props.keys ps) ->
  Props.get k ps = Some x ->
  exists out,
    deep_merge (VObj ps) obj2 = VObj out /\
    Props.get k out = Some (merged obj2 k x).
Proof.
  intros Hp Hnd Hk. eexists. split; [now apply deep_merge_object|].
  now rewrite (get_fold_merge _ _ _ _ Hnd), Hk.
Qed.

Lemma deep_merge_base_wins_at_depth :
  forall (p : list string) (base overlay s : value),
    p <> [] ->
    keys_once_along p base ->
    at_path p base = Some s ->
    scalar s = true ->
    at_path p (deep_merge base overlay) = Some s.
Proof.
  induction p as [|k r IH]; intros base overlay s Hne Honce Hat Hs; [congruence|].
  destruct (absent overlay) eqn:Hab.
  { now rewrite deep_merge_absent. }
  destruct base as [| | | | | |ps]; try discriminate.
  simpl in Hat, Honce. destruct Honce as [Hnd Honce].
  destruct (Props.get k ps) as [x|] eqn:Hk; [|discriminate].
  destruct (member_at_key overlay k ps x Hab Hnd Hk) as (out & -> & Hout).
  simpl. rewrite Hout.
  destruct r as [|k' r'].
  - simpl in Hat. injection Hat as ->. now rewrite merged_scalar.
  - unfold merged.
    destruct (mergeable x && mergeable (member overlay k)); [|exact Hat].
    apply IH; [discriminate | exact Honce | exact Hat | exact Hs].
Qed.

(** Base wins at every depth: a scalar that [base] holds at the end of a
    path of keys through nested mappings is found at the same path of the
    merge, whatever [overlay] is ([base] with ordinary keys). *)
Theorem deepMergeObjects_base_wins_at_depth :
  forall (p : list string) (base overlay s : value),
    p <> [] ->
    ordinary base ->
    keys_once_along p base ->
    at_path p base = Some s ->
    scalar s = true ->
    exists result,
      deepMergeObjects base overlay = Return result /\
      at_path p result = Some s.
Proof.
  intros p base overlay s Hne Hord Honce Hat Hs.
  exists (deep_merge base overlay). split.
  - now apply deepMergeObjects_returns.
  - now apply deep_merge_base_wins_at_depth.
Qed.

Lemma deepMergeObjects_base_wins_at_depth_witness :
  exists result,
    deepMergeObjects
      (VObj [("crop", VObj [("gravity", VObj [("x", VNum 3)])])])
      (VObj [("crop", VObj [("gravity", VObj [("x", VNum 9); ("y", VNum 1)]);
                            ("mode", VStr "fit")])])
    = Return result /\
    at_path ["crop"; "gravity"; "x"] result = Some (VNum 3).
Proof.
  apply deepMergeObjects_base_wins_at_depth.
  - discriminate.
  - simpl. auto 10.
  - simpl. repeat split; repeat constructor; simpl; intuition discriminate.
  - reflexivity.
  - reflexivity.
Defined.

(** With an overlay that is neither [null] nor [undefined], a base with
    ordinary keys always gives a fresh plain mapping, also when an argument
    is an array, a string or a number; and a base without enumerable
    properties of its own ([null], [undefined], a number, a boolean, an empty
    mapping, array or string) adds nothing: the result is then the copy of
    the overlay's own properties. *)
Theorem deepMergeObjects_yields_mapping :
  forall obj1 obj2 : value,
    absent obj2 = false ->
    (ordinary obj1 ->
     exists output, deepMergeObjects obj1 obj2 = Return (VObj output)) /\
    (spread obj1 = [] -> deepMergeObjects obj1 obj2 = Return (VObj (spread obj2))).
Proof.
  intros obj1 obj2 Hp. split.
  - intros Hord. rewrite deepMergeObjects_returns by exact Hord.
    destruct obj1.
    1-5: destruct obj2; try discriminate; eexists; reflexivity.
    + rewrite deep_merge_array by exact Hp. eexists; reflexivity.
    + rewrite deep_merge_object by exact Hp. eexists; reflexivity.
  - intros Hnone. destruct obj1.
    1-4: destruct obj2; try discriminate; reflexivity.
    + simpl in Hnone. destruct s; [|discriminate].
      destruct obj2; try discriminate; reflexivity.
    + simpl in Hnone. destruct xs; [|discriminate].
      destruct obj2; try discriminate; reflexivity.
    + simpl in Hnone. subst ps.
      destruct obj2; try discriminate; reflexivity.
Qed.

Lemma deepMergeObjects_yields_mapping_witness :
  (exists output,
      deepMergeObjects (VArr [VNum 1]) (VStr "ab") = Return (VObj output)) /\
  deepMergeObjects VNull (VArr [VStr "a"; VStr "b"])
  = Return (VObj [("0", VStr "a"); ("1", VStr "b")]).
Proof.
  split.
  - apply (proj1 (deepMergeObjects_yields_mapping (VArr [VNum 1]) (VStr "ab")
                    eq_refl)).
    simpl. auto.
  - apply (proj2 (deepMergeObjects_yields_mapping VNull (VArr [VStr "a"; VStr "b"])
                    eq_refl)).
    reflexivity.
Defined.

(** A base that has a property [hasOwnProperty] of its own cannot be
    merged: with an overlay that is neither [null] nor [undefined] the first
    round of the loop calls [obj1.hasOwnProperty(key)] on the base and
    throws a [TypeError], whatever else the two arguments hold. *)
Theorem deepMergeObjects_own_hasOwnProperty_throws :
  forall (ps : Props.props value) (obj2 : value),
    absent obj2 = false ->
    Props.has "hasOwnProperty" ps = true ->
    exists message,
      deepMergeObjects (VObj ps) obj2 = Throw (AnError "TypeError" message).
Proof.
  intros ps obj2 Hp Hown. exists "obj1.hasOwnProperty is not a function".
  destruct ps as [|[k v] r]; [discriminate|].
  destruct obj2; try discriminate; cbn [deepMergeObjects]; now rewrite Hown.
Qed.

Lemma deepMergeObjects_own_hasOwnProperty_throws_witness :
  exists message,
    deepMergeObjects (VObj [("a", VNum 2); ("hasOwnProperty", VNum 1)])
                     (VObj [("a", VNum 3)])
    = Throw (AnError "TypeError" message).
Proof.
  apply deepMergeObjects_own_hasOwnProperty_throws; reflexivity.
Defined.

(** A key [__proto__] of the base is not copied: the assignment
    [output["__proto__"] = v] reaches the accessor the fresh object
    inherits, which creates no property.  A base holding that key alone,
    with a number, a string or a boolean at it, merged onto an overlay
    mapping without such a key, gives the overlay's properties and no
    other. *)
Theorem deepMergeObjects_proto_key_is_lost :
  forall (v : value) (overlay : Props.props value),
    scalar v = true ->
    absent v = false ->
    Props.has "__proto__" overlay = false ->
    deepMergeObjects (VObj [("__proto__", v)]) (VObj overlay)
    = Return (VObj overlay).
Proof.
  intros v overlay Hs Hv Hp.
  destruct v as [| |b|n|s|xs|ps]; try discriminate; cbn; unfold assign, mergeable;
    cbn; rewrite Hp, ?andb_false_r; reflexivity.
Qed.

Lemma deepMergeObjects_proto_key_is_lost_witness :
  deepMergeObjects (VObj [("__proto__", VNum 5)]) (VObj [("a", VNum 1)])
  = Return (VObj [("a", VNum 1)]).
Proof.
  apply deepMergeObjects_proto_key_is_lost; reflexivity.
Defined.

(** ** [deepMergeObjects]: merging a mapping with itself *)

Lemma array_free_entry k x ps :
  array_free (VObj ps) -> In (k, x) ps -> array_free x.
Proof.
  simpl. intros [_ Hall]. induction ps as [|[k' x'] r IH]; simpl; intros Hin;
    [contradiction|].
  destruct Hall as [Hx Hr]. destruct Hin as [[= -> ->]|Hin]; auto.
Qed.

Lemma replace_same {V : Type} k (x : V) (ps : Props.props V) :
  Props.get k ps = Some x -> Props.replace k x ps = ps.
Proof.
  induction ps as [|[k' x'] r IH]; simpl; [reflexivity|].
  destruct (String.eqb_spec k k') as [->|Hne].
  - now intros [= ->].
  - intros H. now rewrite IH.
Qed.

Lemma set_same {V : Type} k (x : V) (ps : Props.props V) :
  Props.get k ps = Some x -> Props.set k x ps = ps.
Proof.
  intros H. unfold Props.set, Props.has. rewrite H. now apply replace_same.
Qed.

Lemma mergeable_array_free x :
  mergeable x = true -> array_free x -> exists ps, x = VObj ps.
Proof.
  destruct x; simpl; unfold mergeable; simpl; rewrite ?andb_false_r;
    try discriminate; intros _ H; [contradiction | eauto].
Qed.

Lemma deep_merge_self_bounded n :
  forall ps,
    depth (VObj ps) <= n ->
    array_free (VObj ps) ->
    deep_merge (VObj ps) (VObj ps) = VObj ps.
Proof.
  induction n as [|n IH]; intros ps Hd Hfree; [simpl in Hd; lia|].
  rewrite deep_merge_object by reflexivity. f_equal. simpl spread.
  assert (Hnd : NoDup (Props.keys ps)) by apply Hfree.
  assert (Hrounds : forall es,
    incl es ps -> fold_left (merge_entry (VObj ps)) es ps = ps).
  { induction es as [|[k x] es IHes]; intros Hincl; simpl; [reflexivity|].
    assert (Hin : In (k, x) ps) by (apply Hincl; now left).
    assert (Hk : Props.get k ps = Some x) by now apply PropsFacts.get_In.
    assert (Hm : merged (VObj ps) k x = x).
    { unfold merged. simpl member. rewrite Hk.
      destruct (mergeable x) eqn:Hmx; [|reflexivity]. simpl.
      destruct (mergeable_array_free x Hmx (array_free_entry k x ps Hfree Hin))
        as [qs ->].
      apply IH.
      - pose proof (depth_entry k (VObj qs) ps Hin). lia.
      - exact (array_free_entry k (VObj qs) ps Hfree Hin). }
    unfold merge_entry at 2. simpl fst. simpl snd.
    rewrite Hm, (set_same k x ps Hk). apply IHes.
    intros e He. apply Hincl. now right. }
  apply Hrounds, incl_refl.
Qed.

(** Merging a mapping with itself changes nothing, provided it has
    ordinary keys and no array occurs in it at any depth (an array would
    come back as a mapping over its indices). *)
Theorem deepMergeObjects_self :
  forall ps : Props.props value,
    array_free (VObj ps) ->
    ordinary (VObj ps) ->
    deepMergeObjects (VObj ps) (VObj ps) = Return (VObj ps).
Proof.
  intros ps Hfree Hord. rewrite deepMergeObjects_returns by exact Hord.
  f_equal. now apply (deep_merge_self_bounded (depth (VObj ps))).
Qed.

Lemma deepMergeObjects_self_witness :
  deepMergeObjects
    (VObj [("title", VStr "mine"); ("crop", VObj [("w", VNum 4); ("h", VNull)])])
    (VObj [("title", VStr "mine"); ("crop", VObj [("w", VNum 4); ("h", VNull)])])
  = Return
      (VObj [("title", VStr "mine"); ("crop", VObj [("w", VNum 4); ("h", VNull)])]).
Proof.
  apply deepMergeObjects_self.
  - simpl.
    repeat split;
      repeat (apply NoDup_cons || apply NoDup_nil || apply SSorted_cons
              || apply SSorted_nil || apply Forall_cons || apply Forall_nil);
      simpl; try exact I; intuition discriminate.
  - simpl. auto 10.
Defined.

(** ** [debounce]: bursts, spaced calls, and what [func] receives *)

(** A burst of any length: calls that each follow the one before by less
    than the delay, then quiet for the delay, make [func] run once, with the
    arguments of the last call. *)
Theorem debounce_burst_runs_last_call_once :
  forall (A : Type) (delay : N) (a0 : A) (gaps : list (N * A)) (rest : N)
         (t0 : N) (id0 : positive),
    Forall (fun g => (fst g < delay)%N) gaps ->
    (delay <= rest)%N ->
    Debounce.invoked
      (Debounce.world
         (Debounce.run delay (burst a0 gaps ++ [Debounce.Wait rest])%list
            (Debounce.start A t0 id0)))
    = [last (map snd gaps) a0].
Proof.
  intros A delay a0 gaps rest t0 id0 Hgaps Hrest.
  apply (burst_fires_once delay a0 gaps rest (Debounce.start A t0 id0));
    [apply start_one_pending | exact Hgaps | exact Hrest].
Qed.

Lemma debounce_burst_runs_last_call_once_witness :
  Debounce.invoked
    (Debounce.world
       (Debounce.run 250
          (burst "a" [(100%N, "ab"); (249%N, "abc")] ++ [Debounce.Wait 250])%list
          (Debounce.start string 5 1)))
  = ["abc"].
Proof.
  apply (debounce_burst_runs_last_call_once string 250 "a"
           [(100%N, "ab"); (249%N, "abc")] 250 5 1).
  - repeat constructor.
  - vm_compute. discriminate.
Defined.

Section DebounceMore.

Context {A : Type}.
Variable delay : N.
Implicit Types (c : Debounce.closure A) (a : A).

Lemma idle_one_pending c :
  Debounce.timers (Debounce.world c) = [] -> one_pending c.
Proof. intros H. unfold one_pending. now rewrite H. Qed.

Lemma spaced_calls_all_run (calls : list (A * N)) :
  Forall (fun x => (delay <= snd x)%N) calls ->
  forall c,
    one_pending c ->
    Debounce.invoked (Debounce.world (Debounce.run delay (spaced calls) c))
    = (Debounce.invoked (Debounce.world c) ++ map fst calls)%list.
Proof.
  induction 1 as [|[a d] calls Hd Hall IH]; intros c Hone.
  - simpl. now rewrite List.app_nil_r.
  - unfold spaced. cbn [flat_map fst snd List.app]. rewrite !run_cons.
    fold (spaced calls).
    change (Debounce.step delay c (Debounce.Call a)) with (Debounce.call delay a c).
    destruct (call_arms delay c a Hone) as (Harm & _ & Hinv & _).
    destruct (wait_fires delay _ _ d Harm Hd) as [Hidle Hfire].
    rewrite IH by now apply idle_one_pending.
    rewrite Hfire, Hinv. simpl. now rewrite <- List.app_assoc.
Qed.

Lemma subsequence_snoc (l l' : list A) x :
  subsequence l l' -> subsequence (l ++ [x])%list (l' ++ [x])%list.
Proof.
  induction 1 as [|y l l' H IH|y l l' H IH]; simpl.
  - apply subsequence_take, subsequence_nil.
  - now apply subsequence_skip.
  - now apply subsequence_take.
Qed.

Lemma subsequence_grow (l l' : list A) x :
  subsequence l l' -> subsequence l (l' ++ [x])%list.
Proof.
  induction 1 as [|y l l' H IH|y l l' H IH]; simpl.
  - apply subsequence_skip, subsequence_nil.
  - now apply subsequence_skip.
  - now apply subsequence_take.
Qed.

Lemma subsequence_prefix (l1 l2 l' : list A) :
  subsequence (l1 ++ l2)%list l' -> subsequence l1 l'.
Proof.
  intros H. remember (l1 ++ l2)%list as l eqn:El. revert l1 l2 El.
  induction H as [|x l l' H IH|x l l' H IH]; intros l1 l2 El.
  - symmetry in El. apply app_eq_nil in El. destruct El as [-> _]. constructor.
  - apply subsequence_skip. now apply (IH l1 l2).
  - destruct l1 as [|y l1]; simpl in El.
    + apply subsequence_skip. now apply (IH [] l).
    + injection El as <- ->. apply subsequence_take. now apply (IH l1 l2).
Qed.

Lemma subsequence_length (l l' : list A) :
  subsequence l l' -> List.length l <= List.length l'.
Proof. induction 1; simpl; lia. Qed.

(** What [func] has received and what still waits for it, together, are
    calls that were made, in the order they were made. *)
Lemma step_keeps_calls c e made :
  one_pending c ->
  subsequence (Debounce.invoked (Debounce.world c) ++ pending_args c)%list made ->
  subsequence
    (Debounce.invoked (Debounce.world (Debounce.step delay c e))
     ++ pending_args (Debounce.step delay c e))%list
    (made ++ calls_of [e])%list.
Proof.
  intros Hone Hsub. destruct e as [a|dt].
  - change (Debounce.step delay c (Debounce.Call a)) with (Debounce.call delay a c).
    destruct (call_arms delay c a Hone) as (_ & Hts & Hinv & _).
    unfold pending_args. rewrite Hts, Hinv. simpl.
    apply subsequence_snoc. now apply subsequence_prefix in Hsub.
  - simpl calls_of. rewrite List.app_nil_r.
    unfold one_pending in Hone. unfold pending_args in *. simpl.
    destruct (Debounce.timers (Debounce.world c)) as [|t [|u r]];
      [| |contradiction]; simpl in *.
    + now rewrite !List.app_nil_r in *.
    + destruct (Debounce.due t <=? _)%N; simpl.
      * now rewrite List.app_nil_r.
      * now rewrite List.app_nil_r.
Qed.

Lemma run_keeps_calls es :
  forall c made,
    one_pending c ->
    subsequence (Debounce.invoked (Debounce.world c) ++ pending_args c)%list made ->
    subsequence
      (Debounce.invoked (Debounce.world (Debounce.run delay es c))
       ++ pending_args (Debounce.run delay es c))%list
      (made ++ calls_of es)%list.
Proof.
  induction es as [|e es IH]; intros c made Hone Hsub.
  - simpl. now rewrite List.app_nil_r.
  - rewrite run_cons.
    replace (calls_of (e :: es)) with (calls_of [e] ++ calls_of es)%list
      by (unfold calls_of; simpl; now rewrite List.app_nil_r).
    rewrite List.app_assoc. apply IH.
    + now apply step_one_pending.
    + now apply step_keeps_calls.
Qed.

End DebounceMore.

(** Calls that are each followed by a quiet time of at least the delay are
    all passed on to [func], in order: debouncing drops nothing then. *)
Theorem debounce_spaced_calls_all_run :
  forall (A : Type) (delay : N) (calls : list (A * N)) (t0 : N) (id0 : positive),
    Forall (fun x => (delay <= snd x)%N) calls ->
    Debounce.invoked
      (Debounce.world (Debounce.run delay (spaced calls) (Debounce.start A t0 id0)))
    = map fst calls.
Proof.
  intros A delay calls t0 id0 Hcalls.
  now rewrite (spaced_calls_all_run delay calls Hcalls _ (start_one_pending t0 id0)).
Qed.

Lemma debounce_spaced_calls_all_run_witness :
  Debounce.invoked
    (Debounce.world
       (Debounce.run 300 (spaced [("a", 300%N); ("b", 450%N)])
          (Debounce.start string 0 1)))
  = ["a"; "b"].
Proof.
  apply (debounce_spaced_calls_all_run string 300 [("a", 300%N); ("b", 450%N)] 0 1).
  repeat constructor; vm_compute; discriminate.
Defined.

(** After any history of calls and waiting, what [func] has received is a
    subsequence of the calls made: only arguments that were passed to the
    wrapper, in the order of the calls, each call at most once, and so never
    more invocations than calls. *)
Theorem debounce_invokes_only_calls_made :
  forall (A : Type) (delay : N) (es : list (Debounce.event A))
         (t0 : N) (id0 : positive),
    let received :=
      Debounce.invoked
        (Debounce.world (Debounce.run delay es (Debounce.start A t0 id0))) in
    subsequence received (calls_of es) /\
    List.length received <= List.length (calls_of es).
Proof.
  intros A delay es t0 id0 received.
  assert (Hsub : subsequence received (calls_of es)).
  { pose proof (run_keeps_calls delay es (Debounce.start A t0 id0) []
                  (start_one_pending t0 id0) subsequence_nil) as H.
    simpl in H. now apply subsequence_prefix in H. }
  split; [exact Hsub | now apply subsequence_length].
Qed.

(** After a call nothing is passed to [func] until the delay has run out:
    whatever went before, a call followed by less than the delay of waiting
    leaves the calls [func] has received as they were before the call. *)
Theorem debounce_quiet_after_call :
  forall (A : Type) (delay : N) (es : list (Debounce.event A)) (a : A) (dt : N)
         (t0 : N) (id0 : positive),
    (dt < delay)%N ->
    Debounce.invoked
      (Debounce.world
         (Debounce.run delay (es ++ [Debounce.Call a; Debounce.Wait dt])%list
            (Debounce.start A t0 id0)))
    = Debounce.invoked
        (Debounce.world (Debounce.run delay es (Debounce.start A t0 id0))).
Proof.
  intros A delay es a dt t0 id0 Hdt.
  rewrite run_app, !run_cons.
  set (c := Debounce.run delay es (Debounce.start A t0 id0)).
  assert (Hone : one_pending c) by apply run_one_pending, start_one_pending.
  change (Debounce.step delay c (Debounce.Call a)) with (Debounce.call delay a c).
  destruct (call_arms delay c a Hone) as (Harm & _ & Hinv & _).
  destruct (wait_early delay _ _ dt Harm Hdt) as (t & _ & _ & Hsame).
  cbn [Debounce.run fold_left]. now rewrite Hsame, Hinv.
Qed.

Lemma debounce_quiet_after_call_witness :
  Debounce.invoked
    (Debounce.world
       (Debounce.run 300
          ([Debounce.Call "a"; Debounce.Wait 300]
           ++ [Debounce.Call "b"; Debounce.Wait 299])%list
          (Debounce.start string 0 1)))
  = Debounce.invoked
      (Debounce.world
         (Debounce.run 300 [Debounce.Call "a"; Debounce.Wait 300]
            (Debounce.start string 0 1))).
Proof.
  apply (debounce_quiet_after_call string 300
           [Debounce.Call "a"; Debounce.Wait 300] "b" 299 0 1).
  reflexivity.
Defined.

(** ** The query strings: removing and setting to [null] *)

Lemma delete_absent {V : Type} k (o : Props.props V) :
  ~ In k (Props.keys o) -> Props.delete k o = o.
Proof.
  intros Hni. apply filter_all. intros [j x] Hin. simpl.
  destruct (String.eqb_spec k j) as [->|Hne]; [|reflexivity].
  exfalso. apply Hni. change j with (fst (j, x)). now apply in_map.
Qed.

Lemma emitted_replace_null k (o : Props.props qvalue) :
  NoDup (Props.keys o) ->
  Qs.emitted true (Props.replace k QNull o) = Qs.emitted true (Props.delete k o).
Proof.
  unfold Qs.emitted.
  induction o as [|[j x] r IH]; simpl; intros Hnd; [reflexivity|].
  inversion Hnd as [|? ? Hni Hr]; subst.
  destruct (String.eqb_spec k j) as [->|Hne]; simpl.
  - fold (Props.delete j r). now rewrite (delete_absent j r Hni).
  - fold (Props.delete k r). f_equal. now apply IH.
Qed.

Lemma emitted_define_null k (o : Props.props qvalue) :
  Qs.emitted true (Props.define k QNull o) = Qs.emitted true o.
Proof.
  unfold Qs.emitted, Props.define. destruct (Key.array_index k) as [n|].
  - induction o as [|[j x] r IH]; simpl; [reflexivity|].
    destruct (Key.array_index j) as [m|]; [destruct (m <=? n)%N|];
      simpl; try reflexivity. now rewrite IH.
  - rewrite flat_map_app. simpl. now rewrite List.app_nil_r.
Qed.

Lemma emitted_set_null k (o : Props.props qvalue) :
  NoDup (Props.keys o) ->
  Qs.emitted true (Props.set k QNull o) = Qs.emitted true (Props.delete k o).
Proof.
  intros Hnd. unfold Props.set. destruct (Props.has k o) eqn:Hh.
  - now apply emitted_replace_null.
  - apply PropsFacts.has_false_iff in Hh.
    now rewrite emitted_define_null, (delete_absent k o Hh).
Qed.

(** Setting a parameter to [null] is removing it: [formUrlQuery] with the
    value [null] returns the very string [removeKeysFromQuery] returns for
    that one key. *)
Theorem formUrlQuery_null_removes :
  forall pathname searchParams key : string,
    formUrlQuery pathname searchParams key QNull
    = removeKeysFromQuery pathname searchParams [key].
Proof.
  intros pathname searchParams key.
  unfold formUrlQuery, removeKeysFromQuery, Qs.stringify, formUrlQuery_params.
  rewrite removeKeysFromQuery_params_filter.
  rewrite (emitted_set_null key _ (proj1 (ordered_parse searchParams))).
  replace (filter (fun e : string * qvalue => negb (removed [key] (fst e)))
             (Qs.parse searchParams))
    with (Props.delete key (Qs.parse searchParams)).
  - rewrite emitted_without_nulls; [reflexivity|].
    intros e He. apply filter_In in He. now apply (parsed_not_nullish searchParams).
  - apply filter_ext. intros [j x]. unfold removed. simpl.
    now rewrite orb_false_r, (String.eqb_sym j key).
Qed.

(** [removeKeysFromQuery] takes [keysToRemove] as a set: the order of the
    keys and their repetition do not change the result. *)
Theorem removeKeysFromQuery_keys_as_set :
  forall (pathname searchParams : string) (ks1 ks2 : list string),
    (forall k, In k ks1 <-> In k ks2) ->
    removeKeysFromQuery pathname searchParams ks1
    = removeKeysFromQuery pathname searchParams ks2.
Proof.
  intros pathname searchParams ks1 ks2 Hsame.
  unfold removeKeysFromQuery. rewrite !removeKeysFromQuery_params_filter.
  do 3 f_equal. apply filter_ext. intros [j x]. simpl. f_equal.
  unfold removed.
  destruct (existsb (String.eqb j) ks1) eqn:H1, (existsb (String.eqb j) ks2) eqn:H2;
    try reflexivity.
  - apply existsb_eqb_In, Hsame, existsb_eqb_In in H1. congruence.
  - apply existsb_eqb_In, Hsame, existsb_eqb_In in H2. congruence.
Qed.

Lemma removeKeysFromQuery_keys_as_set_witness :
  removeKeysFromQuery "/gallery" "a=1&b=2&c=3" ["c"; "a"; "c"]
  = removeKeysFromQuery "/gallery" "a=1&b=2&c=3" ["a"; "c"].
Proof.
  apply removeKeysFromQuery_keys_as_set.
  intros k. simpl. tauto.
Defined.

(** ** [download]: the filename is optional, the page only grows *)

(** Without a filename, or with an empty one, the blob is still offered:
    the anchor is appended and clicked, with no [download] name set on it. *)
Theorem download_without_filename :
  forall (url : string) (filename : option string)
         (net : string -> fetch_outcome) (p : page) (blobURL : string),
    url <> "" ->
    filename = None \/ filename = Some "" ->
    net url = BlobReady blobURL ->
    download url filename net p =
    (Return tt,
     {| fetched := (fetched p ++ [url])%list;
        body := (body p ++ [{| href := blobURL; download_name := None |}])%list;
        clicked := (clicked p ++ [{| href := blobURL; download_name := None |}])%list;
        logged := logged p |}).
Proof.
  intros url filename net p blobURL Hurl Hname Hnet.
  apply String.eqb_neq in Hurl. unfold download. rewrite Hurl, Hnet.
  destruct Hname as [-> | ->]; reflexivity.
Qed.

Lemma download_without_filename_witness :
  download "https://cdn/x" (Some "") (fun _ => BlobReady "blob:7")
    {| fetched := []; body := []; clicked := []; logged := [] |} =
  (Return tt,
   {| fetched := ["https://cdn/x"];
      body := [{| href := "blob:7"; download_name := None |}];
      clicked := [{| href := "blob:7"; download_name := None |}];
      logged := [] |}).
Proof.
  apply (download_without_filename "https://cdn/x" (Some "")
           (fun _ => BlobReady "blob:7")
           {| fetched := []; body := []; clicked := []; logged := [] |} "blob:7").
  - discriminate.
  - right. reflexivity.
  - reflexivity.
Defined.

(** Whatever the arguments and however the request ends, [download] only
    adds to the page: it requests the given url at most once, appends at most
    one anchor and clicks exactly what it appends, removes no anchor (the one
    it appends stays in the body), and for a url that is not empty it either
    offers the blob or logs the failure: exactly one of the two, and neither
    for the empty url. *)
Theorem download_only_adds :
  forall (url : string) (filename : option string)
         (net : string -> fetch_outcome) (p : page),
    let p' := snd (download url filename net p) in
    exists requests anchors entries,
      fetched p' = (fetched p ++ requests)%list /\
      body p' = (body p ++ anchors)%list /\
      clicked p' = (clicked p ++ anchors)%list /\
      logged p' = (logged p ++ entries)%list /\
      requests = (if String.eqb url "" then [] else [url]) /\
      List.length anchors + List.length entries
      = (if String.eqb url "" then 0 else 1).
Proof.
  intros url filename net p p'. subst p'. unfold download.
  destruct (String.eqb url "").
  - exists [], [], []. simpl. rewrite !List.app_nil_r.
    repeat split; reflexivity || lia.
  - simpl. destruct (net url) as [e|e|u]; simpl.
    + exists [url], [], [ConsoleLog [("error", e)]]. simpl.
      rewrite !List.app_nil_r. repeat split; reflexivity || lia.
    + exists [url], [], [ConsoleLog [("error", e)]]. simpl.
      rewrite !List.app_nil_r. repeat split; reflexivity || lia.
    + eexists [url], [_], []. simpl. rewrite !List.app_nil_r.
      repeat split; reflexivity || lia.
Qed.

(** ** [handleError]: what the thrown message tells *)

(** The prefix tells the known shapes from the unknown ones: an [Error] or
    a string never yields the message some other value yields.  The class of
    the error is not kept, though: the thrown error is a plain [Error], and
    an [Error] and a string of the same text are reported and rethrown
    alike. *)
Theorem handleError_prefix_separates_shapes :
  (forall (e1 e2 : any) (out1 out2 : console),
      known_shape e1 = true ->
      known_shape e2 = false ->
      snd (handleError e1 out1) <> snd (handleError e2 out2)) /\
  (forall (name message : string) (out : console),
      handleError (AnError name message) out
      = handleError (AValue (VStr message)) out).
Proof.
  split.
  - intros e1 e2 out1 out2 H1 H2.
    assert (Hk : exists m, snd (handleError e1 out1)
                           = Throw (new_Error (String "E" m))).
    { destruct e1 as [n1 m1|[]]; try discriminate; eexists; reflexivity. }
    assert (Hu : exists m, snd (handleError e2 out2)
                           = Throw (new_Error (String "U" m))).
    { destruct e2 as [n2 m2|[]]; try discriminate; eexists; reflexivity. }
    destruct Hk as [m1 ->], Hu as [m2 ->]. discriminate.
  - reflexivity.
Qed.

Lemma handleError_prefix_separates_shapes_witness :
  snd (handleError (AValue (VStr "nknown error: 1")) [])
  <> snd (handleError (AValue (VNum 1)) []).
Proof.
  apply (proj1 handleError_prefix_separates_shapes); reflexivity.
Defined.

(** ** The shimmer placeholder is plain ASCII *)

(** For every width and height the SVG text holds ASCII characters only,
    so [window.btoa] accepts it and encodes the bytes [Buffer.from] encodes. *)
Theorem shimmer_is_ascii :
  forall w h : Z,
    Forall (fun c => (c < 128)%N) (code_units (shimmer w h)) /\
    utf8 (shimmer w h) = code_units (shimmer w h).
Proof.
  intros w h. pose proof (ascii_only_shimmer w h) as H. split.
  - unfold ascii_only in H. rewrite forallb_forall in H.
    apply Forall_forall. intros c Hc. now apply N.ltb_lt, H.
  - now apply utf8_ascii.
Qed.

(** ** [deepMergeObjects]: the merge below a common path *)

Lemma at_path_mapping_mergeable r x b :
  at_path r x = Some (VObj b) -> mergeable x = true.
Proof.
  destruct r as [|k r]; simpl.
  - now intros [= ->].
  - destruct x; try discriminate. reflexivity.
Qed.

Lemma deep_merge_descends :
  forall (p : list string) (base overlay : value) (b o : Props.props value),
    keys_once_along p base ->
    at_path p base = Some (VObj b) ->
    at_path p overlay = Some (VObj o) ->
    at_path p (deep_merge base overlay)
    = Some (deep_merge (VObj b) (VObj o)).
Proof.
  induction p as [|k r IH]; intros base overlay b o Honce Hb Ho.
  - simpl in *. injection Hb as ->. injection Ho as ->. reflexivity.
  - destruct base as [| | | | | |ps]; try discriminate.
    destruct overlay as [| | | | | |qs]; try discriminate.
    simpl in Hb, Ho, Honce. destruct Honce as [Hnd Honce].
    destruct (Props.get k ps) as [x|] eqn:Hx; [|discriminate].
    destruct (Props.get k qs) as [y|] eqn:Hy; [|discriminate].
    destruct (member_at_key (VObj qs) k ps x eq_refl Hnd Hx) as (out & -> & Hout).
    simpl at_path. rewrite Hout. unfold merged. simpl member. rewrite Hy.
    rewrite (at_path_mapping_mergeable r x b Hb).
    rewrite (at_path_mapping_mergeable r y o Ho). simpl andb. cbv iota.
    now apply IH.
Qed.

Lemma ordinary_at_path p : forall base v,
  ordinary base -> at_path p base = Some v -> ordinary v.
Proof.
  induction p as [|k r IH]; intros base v Hord Hat; simpl in Hat.
  - now injection Hat as <-.
  - destruct base as [| | | | | |ps]; try discriminate.
    destruct (Props.get k ps) as [x|] eqn:Hx; [|discriminate].
    apply (IH x); [|exact Hat].
    apply (ordinary_entry k x ps Hord). now apply PropsFacts.In_get.
Qed.

(** The merge is recursive along mappings: where [base] and [overlay] both
    hold a mapping at the end of a common path of keys, the merge holds, at
    that path, the merge of the two mappings ([base] with ordinary keys). *)
Theorem deepMergeObjects_descends :
  forall (p : list string) (base overlay : value) (b o : Props.props value),
    ordinary base ->
    keys_once_along p base ->
    at_path p base = Some (VObj b) ->
    at_path p overlay = Some (VObj o) ->
    exists result nested,
      deepMergeObjects base overlay = Return result /\
      deepMergeObjects (VObj b) (VObj o) = Return nested /\
      at_path p result = Some nested.
Proof.
  intros p base overlay b o Hord Honce Hb Ho.
  exists (deep_merge base overlay), (deep_merge (VObj b) (VObj o)).
  split; [now apply deepMergeObjects_returns|]. split.
  - apply deepMergeObjects_returns. now apply (ordinary_at_path p base).
  - now apply deep_merge_descends.
Qed.

Lemma deepMergeObjects_descends_witness :
  exists result nested,
    deepMergeObjects
      (VObj [("crop", VObj [("w", VNum 4)])])
      (VObj [("crop", VObj [("w", VNum 1); ("h", VNum 2)]); ("q", VNum 80)])
    = Return result /\
    deepMergeObjects (VObj [("w", VNum 4)]) (VObj [("w", VNum 1); ("h", VNum 2)])
    = Return nested /\
    at_path ["crop"] result = Some nested.
Proof.
  apply deepMergeObjects_descends.
  - simpl. auto 10.
  - simpl. repeat split; repeat constructor; simpl; intuition discriminate.
  - reflexivity.
  - reflexivity.
Defined.

(** ** [removeKeysFromQuery]: the second loop *)

(** On a flat query string the parameters read are the strings written in
    it, so the loop that strips [null] and [undefined] finds nothing to
    strip: the object written out is the parsed one less the keys to remove,
    and the string returned lists parameters none of which has a key to
    remove. *)
Theorem removeKeysFromQuery_strips_nothing :
  forall (pathname : string) (l : list (string * string))
         (keysToRemove : list string),
    flat_query l ->
    let deleted :=
      fold_left (fun o key => Props.delete key o) keysToRemove
        (Qs.parse (query_of l)) in
    (forall e, In e (Qs.parse (query_of l)) ->
               exists t, snd e = QStr t /\ In (fst e, t) l) /\
    fold_left drop_nullish (Props.keys deleted) deleted = deleted /\
    (forall k, In k keysToRemove ->
               ~ In k (remaining_keys (query_of l) keysToRemove)) /\
    (exists rest,
        removeKeysFromQuery pathname (query_of l) keysToRemove
        = pathname ++ "?" ++ query_of rest /\
        Qs.pairs (query_of rest) = rest /\
        (forall k t, In (k, t) rest -> In (k, t) l /\ ~ In k keysToRemove)).
Proof.
  intros pathname l keysToRemove Hflat deleted.
  pose proof Hflat as (Hndl & _).
  assert (Hd : deleted = filter (fun e => negb (removed keysToRemove (fst e)))
                           (Qs.parse (query_of l))) by apply fold_delete.
  assert (Hp : removeKeysFromQuery_params (query_of l) keysToRemove = deleted).
  { rewrite Hd. apply removeKeysFromQuery_params_filter. }
  split; [|split; [exact Hp|split]].
  - rewrite (parse_query_of l Hflat). intros [k x] Hin.
    destruct (object_of_strings l _ Hin) as [t Ht]. simpl in Ht. subst x.
    exists t. split; [reflexivity|]. simpl.
    apply (get_object_of k t l Hndl).
    apply PropsFacts.get_In; [apply ordered_object_of | exact Hin].
  - intros k Hk Hin. unfold remaining_keys in Hin. rewrite Hp, Hd in Hin.
    apply in_map_iff in Hin. destruct Hin as ([j t] & Hj & Hin). simpl in Hj.
    subst j. apply In_emitted in Hin. destruct Hin as (x & Hx & _).
    apply filter_In in Hx. destruct Hx as [_ Hx]. simpl in Hx.
    apply negb_true_iff in Hx. apply existsb_eqb_In in Hk.
    unfold removed in Hx. congruence.
  - eexists. split; [now apply removeKeysFromQuery_flat|].
    split; [now apply written_kept_reads_back|].
    intros k t Hkt. apply (In_written_kept l keysToRemove k t Hndl) in Hkt.
    destruct Hkt as [Hin Hr]. split; [exact Hin|].
    intros Hk. apply existsb_eqb_In in Hk. unfold removed in Hr. congruence.
Qed.

Lemma removeKeysFromQuery_strips_nothing_witness :
  ~ In "color" (remaining_keys "type=fill&color=red&page=2" ["page"; "color"]) /\
  exists rest,
    removeKeysFromQuery "/gallery" "type=fill&color=red&page=2" ["page"; "color"]
    = "/gallery?" ++ query_of rest /\
    Qs.pairs (query_of rest) = rest /\
    (forall k t, In (k, t) rest ->
                 In (k, t) [("type", "fill"); ("color", "red"); ("page", "2")] /\
                 ~ In k ["page"; "color"]).
Proof.
  destruct (removeKeysFromQuery_strips_nothing "/gallery"
              [("type", "fill"); ("color", "red"); ("page", "2")]
              ["page"; "color"]) as (_ & _ & Hnever & Hrest).
  - split; [|split].
    + repeat constructor; simpl; intuition discriminate.
    + reflexivity.
    + simpl. lia.
  - split; [|exact Hrest]. apply Hnever. right. left. reflexivity.
Defined.
